(** * wx-calendar, [src/basic/tools.ts]: helper functions of the calendar

    A shallow embedding of the helpers of [tools.ts] and the properties
    their description states about them.

    Conventions of the embedding.
    - A JavaScript [number] that holds an integer is a [Z]; the 32-bit
      operator [<<] is written out with its wrap-around.
    - A JavaScript [string] is a [string]; a template literal is an append.
    - [undefined] as the result of an array read is [None].
    - The values imported from [./constants] (the panel count, the list of
      layout areas, the [VIEWS] object and the [View] enum) are the fields
      of a record [constants] that every function takes as its first
      argument. *)

From ITree Require Import ITree ITreeFacts Events.State Events.StateFacts.
From Stdlib Require Import ZArith List String Ascii Bool Lia.
From Stdlib Require Import DecimalString DecimalNat.
Import ListNotations.

Local Open Scope Z_scope.

(** ** Values imported from [./constants] *)

Definition CalendarView := string.
Definition LayoutArea := string.

(** [View] is a number: the flag of a view. *)
Definition View := Z.

Record constants : Type := {
  CALENDAR_PANELS : Z;
  FULL_LAYOUT : list LayoutArea;
  (** [values(VIEWS)]: the values of the [VIEWS] object in property order. *)
  VIEWS_values : list CalendarView;
  (** [VIEWS.MONTH] *)
  VIEWS_MONTH : CalendarView;
  (** [View.week], [View.month], [View.schedule] *)
  View_week : View;
  View_month : View;
  View_schedule : View
}.

(** Modelled from the spec: the module [./constants] that [tools.ts]
    imports its constants from. The spec names the views week, month and
    schedule, in this order, and has 0 and 8 as the integers next to the
    flags of three views, hence the flags 1, 2 and 4. It gives neither the
    panel count nor the names of the layout areas; the values below are
    one choice for them. *)
Definition wx_constants : constants := {|
  CALENDAR_PANELS := 3;
  FULL_LAYOUT :=
    ["header"; "title"; "subinfo"; "today"; "viewbar"; "dragbar"]%string;
  VIEWS_values := ["week"; "month"; "schedule"]%string;
  VIEWS_MONTH := "month"%string;
  View_week := 1;
  View_month := 2;
  View_schedule := 4
|}.

(** ** JavaScript arithmetic used by the helpers *)

Module JS.

(** [ToInt32]: the integer modulo 2^32, read as a signed 32-bit value. *)
Definition to_int32 (x : Z) : Z :=
  let m := x mod 2 ^ 32 in
  if m <? 2 ^ 31 then m else m - 2 ^ 32.

(** [a << n]: both operands are converted, the shift count is taken
    modulo 32, and the result is again a signed 32-bit value. *)
Definition shl (a n : Z) : Z :=
  to_int32 (Z.shiftl (to_int32 a) (n mod 32)).

(** [Math.log2] on an integer, as an array index: the exponent when the
    argument is a positive power of two, and no index otherwise (the
    result is then a fraction, [-Infinity] or [NaN]). *)
Definition log2_index (x : Z) : option nat :=
  if (0 <? x) && (2 ^ Z.log2 x =? x) then Some (Z.to_nat (Z.log2 x))
  else None.

(** [Array.prototype.indexOf] on strings: the first position that holds
    the value, [-1] when there is none. *)
Fixpoint indexOf (l : list string) (x : string) : Z :=
  match l with
  | [] => -1
  | y :: l' =>
      if String.eqb y x then 0
      else let i := indexOf l' x in if i <? 0 then -1 else i + 1
  end.

(** [Array.prototype.includes] on strings. *)
Definition includes (l : list string) (x : string) : bool :=
  existsb (String.eqb x) l.

(** [Array.prototype.join]. *)
Definition join (l : list string) (sep : string) : string :=
  String.concat sep l.

(** The values [isView] may be given: its parameter is [unknown]. *)
Inductive value : Type :=
| Undefined
| Null
| Bool (b : bool)
| Num (z : Z)
| Str (s : string).

(** [===] against a number. *)
Definition strict_eq_num (v : value) (z : Z) : bool :=
  match v with
  | Num x => x =? z
  | _ => false
  end.

End JS.

(** ** Regular expressions

    The fragment of the pattern language that the hide-token patterns of
    the layout helpers are written in: a sequence of items, each a literal
    character or the class [\s], possibly starred. A pattern with any other
    syntax character is outside the fragment and [parse] gives [None] for
    it. *)

Module RegExp.

Inductive atom : Type :=
| Chr (c : ascii)
| Space.

Inductive quant : Type :=
| Once
| Star.

Definition regexp : Type := list (atom * quant).

(** The characters with a meaning of their own in a pattern. *)
Definition syntax_chars : list ascii :=
  ["\"; "^"; "$"; "."; "*"; "+"; "?"; "("; ")"; "["; "]"; "{"; "}"; "|"]%char.

Definition is_syntax_char (c : ascii) : bool :=
  existsb (Ascii.eqb c) syntax_chars.

(** A string that a pattern takes character by character. *)
Fixpoint literal (s : string) : bool :=
  match s with
  | EmptyString => true
  | String c s' => negb (is_syntax_char c) && literal s'
  end.

(** The class [\s]: tab, line feed, vertical tab, form feed, carriage
    return and space. *)
Definition is_space (c : ascii) : bool :=
  let n := nat_of_ascii c in
  ((9 <=? n) && (n <=? 13) || (n =? 32))%nat.

Definition option_cons (i : atom * quant) (r : option regexp)
  : option regexp :=
  match r with
  | Some r' => Some (i :: r')
  | None => None
  end.

(** [new RegExp(pattern)]. *)
Fixpoint parse (p : string) : option regexp :=
  match p with
  | EmptyString => Some []
  | String c rest =>
      if Ascii.eqb c "\" then
        match rest with
        | String e rest' =>
            if Ascii.eqb e "s" then
              match rest' with
              | String q rest'' =>
                  if Ascii.eqb q "*"
                  then option_cons (Space, Star) (parse rest'')
                  else option_cons (Space, Once) (parse rest')
              | EmptyString => Some [(Space, Once)]
              end
            else None
        | EmptyString => None
        end
      else if is_syntax_char c then None
      else
        match rest with
        | String q rest' =>
            if Ascii.eqb q "*"
            then option_cons (Chr c, Star) (parse rest')
            else option_cons (Chr c, Once) (parse rest)
        | EmptyString => Some [(Chr c, Once)]
        end
  end.

(** The expression of a string taken character by character. *)
Fixpoint lits (s : string) : regexp :=
  match s with
  | EmptyString => []
  | String c s' => (Chr c, Once) :: lits s'
  end.

Definition accepts (a : atom) (c : ascii) : bool :=
  match a with
  | Chr x => Ascii.eqb x c
  | Space => is_space c
  end.

(** Does the expression match at the start of [s]? A starred item takes
    as many characters as it can and gives them back one by one. *)
Fixpoint match_here (r : regexp) (s : string) : bool :=
  match r with
  | [] => true
  | (a, Once) :: r' =>
      match s with
      | String c s' => accepts a c && match_here r' s'
      | EmptyString => false
      end
  | (a, Star) :: r' =>
      (fix star (s : string) : bool :=
         match s with
         | String c s' => (accepts a c && star s') || match_here r' s
         | EmptyString => match_here r' s
         end) s
  end.

(** [RegExp.prototype.test]: a match at some position of [s]. *)
Fixpoint test (r : regexp) (s : string) : bool :=
  match_here r s
  || match s with
     | String _ s' => test r s'
     | EmptyString => false
     end.

End RegExp.

(** ** Promises *)

Module Promise.

Inductive promise (A E : Type) : Type :=
| Pending
| Fulfilled (a : A)
| Rejected (e : E).

Arguments Pending {A E}.
Arguments Fulfilled {A E} a.
Arguments Rejected {A E} e.

(** [resolve] and [reject] settle a pending promise and do nothing to a
    settled one. *)
Definition resolve {A E} (a : A) (p : promise A E) : promise A E :=
  match p with
  | Pending => Fulfilled a
  | _ => p
  end.

Definition reject {A E} (e : E) (p : promise A E) : promise A E :=
  match p with
  | Pending => Rejected e
  | _ => p
  end.

End Promise.

(** ** The host's tick scheduler

    [wx.nextTick(cb)] as an event of the program: the program asks for a
    tick, and goes on when the host has called [cb]. *)

Variant hostE : Type -> Type :=
| NextTick : hostE unit.

(** What the host records of the ticks: the request of the [k]-th tick
    and the call of its callback. *)
Inductive tick_event : Type :=
| TickRequested (k : nat)
| TickFired (k : nat).

Record host_state : Type := {
  next_tick : nat;
  tick_log : list tick_event
}.

(** The host takes the request of a tick and answers it by calling the
    callback, once. *)
Definition host : hostE ~> Monads.stateT host_state (itree void1) :=
  fun _ e s =>
    match e with
    | NextTick =>
        Ret ({| next_tick := S (next_tick s);
                tick_log := tick_log s
                            ++ [TickRequested (next_tick s);
                                TickFired (next_tick s)] |}, tt)
    end.

(** [n] ticks, one after the other. *)
Fixpoint ticks (n : nat) : itree hostE unit :=
  match n with
  | O => Ret tt
  | S m => ITree.bind (ITree.trigger NextTick) (fun _ => ticks m)
  end.

(** The log of [n] ticks that start at tick [k]. *)
Fixpoint sequential_log (k n : nat) : list tick_event :=
  match n with
  | O => []
  | S m => TickRequested k :: TickFired k :: sequential_log (S k) m
  end.

(** ** The helpers of [tools.ts] *)

Section Tools.

Variable K : constants.

Definition circularDiff (idx curr : Z) : Z :=
  let half := CALENDAR_PANELS K / 2 in
  let idx := if idx <? curr - half then idx + CALENDAR_PANELS K else idx in
  let idx := if idx >? curr + half then idx - CALENDAR_PANELS K else idx in
  idx - curr.

(** The promise of [nextTick] resolves with the result of the callback,
    with [undefined] when there is none. *)
Definition nextTick {R : Type} (callback : option (unit -> R))
  : itree hostE (option R) :=
  ITree.bind (ITree.trigger NextTick)
    (fun _ => Ret (option_map (fun f => f tt) callback)).

(** [while (n--) await nextTick()]: the loop goes on while the value
    of [n] before the decrement is not zero. *)
Definition severalTicks (n : Z) : itree hostE unit :=
  ITree.iter
    (fun n : Z =>
       if n =? 0 then Ret (inr tt)
       else ITree.bind (nextTick (@None (unit -> unit)))
              (fun _ => Ret (inl (n - 1))))
    n.

(** [nodeRect(component)(selector)]. The component is the host's side of
    the query: for a selector, the results that
    [selectAll(selector).boundingClientRect(cb).exec()] calls [cb] with,
    one list of rects for each call, in order. *)
Section NodeRect.

Variable Rect : Type.

Definition BoundingClientRects : Type := list Rect.

Definition ComponentInstance : Type :=
  string -> list BoundingClientRects.

Definition nodeRect_callback (selector : string)
    (p : Promise.promise BoundingClientRects string)
    (rects : BoundingClientRects)
  : Promise.promise BoundingClientRects string :=
  if negb (List.length rects =? 0)%nat then Promise.resolve rects p
  else
    Promise.reject ("view not found by selector " ++ selector)%string p.

Definition nodeRect (component : ComponentInstance) (selector : string)
  : Promise.promise BoundingClientRects string :=
  fold_left (nodeRect_callback selector) (component selector)
    Promise.Pending.

End NodeRect.

(** ** Layout areas *)

Definition LHCP : string := "wc--hide-".

Definition layoutHideCls (layout : option (list LayoutArea)) : string :=
  match layout with
  | None | Some [] => ""
  | Some layout =>
      let hideAreas :=
        filter (fun item => negb (JS.includes layout item)) (FULL_LAYOUT K)
      in
      JS.join (List.map (fun item => LHCP ++ item)%string hideAreas) " "
  end.

(** [new RegExp(`${LHCP}${area}\\s*`)] *)
Definition hide_RegExp (area : LayoutArea) : option RegExp.regexp :=
  RegExp.parse (LHCP ++ area ++ "\s*")%string.

(** [None]: the pattern of the area is outside the fragment of
    [RegExp]. *)
Definition addLayoutHideCls (cls : string) (area : LayoutArea)
  : option string :=
  match hide_RegExp area with
  | Some reg =>
      Some (if RegExp.test reg cls then cls
            else cls ++ " " ++ LHCP ++ area)%string
  | None => None
  end.

Definition hasLayoutArea (cls : string) (area : LayoutArea)
  : option bool :=
  match hide_RegExp area with
  | Some reg => Some (negb (RegExp.test reg cls))
  | None => None
  end.

(** ** View flags *)

Definition viewFlag (view : string) : View :=
  let inputView := if String.eqb view "" then VIEWS_MONTH K else view in
  let idx := JS.indexOf (VIEWS_values K) inputView in
  if idx <? 0 then View_month K else JS.shl 1 idx.

Definition isView (flag : JS.value) : bool :=
  JS.strict_eq_num flag (View_week K)
  || JS.strict_eq_num flag (View_month K)
  || JS.strict_eq_num flag (View_schedule K).

Definition flagView (flag : View) : option CalendarView :=
  match JS.log2_index flag with
  | Some i => nth_error (VIEWS_values K) i
  | None => None
  end.

(** The flag of each position of the ordered list of view names. *)
Definition view_flags : list View :=
  List.map (fun i => JS.shl 1 (Z.of_nat i))
    (seq 0 (List.length (VIEWS_values K))).

End Tools.

(** ** [onceEmitter] *)

Module OnceEmitter.

(** The counter of the closure and the calls of [instance.triggerEvent],
    oldest first. *)
Record state : Type := {
  emits : Z;
  triggered : list (string * list JS.value)
}.

Record OnceEmitter : Type := {
  emit : list JS.value -> state -> state;
  cancel : state -> state
}.

(** [let emits = 0], for an instance with the calls [instance] so far. *)
Definition init (instance : list (string * list JS.value)) : state :=
  {| emits := 0; triggered := instance |}.

Definition onceEmitter (event : string) : OnceEmitter := {|
  emit := fun detail st =>
    let old := emits st in
    let st := {| emits := old + 1; triggered := triggered st |} in
    if negb (old =? 0) then st
    else {| emits := emits st;
            triggered := triggered st ++ [(event, detail)] |};
  cancel := fun st =>
    {| emits := emits st + 1; triggered := triggered st |}
|}.

(** A call of one of the two methods. *)
Inductive call : Type :=
| Emit (detail : list JS.value)
| Cancel.

Definition step (e : OnceEmitter) (st : state) (c : call) : state :=
  match c with
  | Emit detail => emit e detail st
  | Cancel => cancel e st
  end.

Definition run (e : OnceEmitter) (calls : list call) (st : state) : state :=
  fold_left (step e) calls st.

End OnceEmitter.

(** A substring: [t] occurs in [s]. *)
Definition occurs (t s : string) : Prop :=
  exists pre post : string, s = (pre ++ t ++ post)%string.

(** ** More of JavaScript: strings *)

Module JSString.

(** White space for [trim]: tab, line feed, vertical tab, form feed,
    carriage return and space. *)
Definition is_whitespace (c : ascii) : bool :=
  let n := nat_of_ascii c in
  ((9 <=? n) && (n <=? 13) || (n =? 32))%nat.

Fixpoint trimStart (s : string) : string :=
  match s with
  | String c s' => if is_whitespace c then trimStart s' else s
  | EmptyString => EmptyString
  end.

Fixpoint trimEnd (s : string) : string :=
  match s with
  | EmptyString => EmptyString
  | String c s' =>
      match trimEnd s' with
      | EmptyString =>
          if is_whitespace c then EmptyString else String c EmptyString
      | t => String c t
      end
  end.

(** [String.prototype.trim] *)
Definition trim (s : string) : string := trimEnd (trimStart s).

(** The pieces of [s] between the occurrences of a separator that is not
    empty, found from the left; [skip] characters of an occurrence are
    still to pass, and [piece] is the piece read so far. *)
Fixpoint split_from (sep s : string) (skip : nat) (piece : string)
  : list string :=
  match s with
  | EmptyString => [piece]
  | String c s' =>
      match skip with
      | S k => split_from sep s' k piece
      | O =>
          if String.prefix sep s
          then piece :: split_from sep s' (String.length sep - 1) ""
          else split_from sep s' 0 (piece ++ String c "")
      end
  end.

(** [String.prototype.split] with a string: the empty separator gives the
    characters one by one. *)
Definition split (s sep : string) : list string :=
  match sep with
  | EmptyString =>
      List.map (fun c => String c "") (list_ascii_of_string s)
  | String _ _ => split_from sep s 0 ""
  end.

(** A number that is not negative in a template literal: its digits. *)
Definition of_nat (n : nat) : string :=
  NilEmpty.string_of_uint (Nat.to_uint n).

End JSString.

(** ** [mergeStr] *)

Definition mergeStr (strs : list string) (separator : option string)
  : string :=
  let separator :=
    match separator with
    | Some sep => sep
    | None => ","%string
    end in
  JS.join
    (flat_map
       (fun s => List.map JSString.trim (JSString.split s separator)) strs)
    separator.

(** ** [initWeeks] *)

(** [label] is [weeks[i]]: [None] is [undefined]. *)
Record CalendarWeek : Type := {
  key : string;
  label : option string
}.

(** [WEEKS] is the default of the parameter, a constant of
    [./constants]. *)
Definition initWeeks (WEEKS : string) (weeks : option string)
  : list CalendarWeek :=
  let weeks :=
    match weeks with
    | Some w => w
    | None => WEEKS
    end in
  List.map
    (fun i =>
       {| key := ("w_" ++ JSString.of_nat i)%string;
          label := option_map (fun c => String c EmptyString)
                     (String.get i weeks) |})
    (seq 0 (String.length weeks)).

(** ** The adapters of the animated styles and of the viewport

    As for [nodeRect], the instance is the host's side: the results that
    the host calls the callback with, one for each call, in order. *)

Record AnimatedResult : Type := {
  styleId : Z
}.

Section Adapters.

(** The types of the updater, of the user's configuration and of the
    result of the scroll offset. *)
Variables AnimatedUpdater AnimatedUserConfig ScrollOffset : Type.

(** No adapter of this section calls [reject]; the type of the values of
    rejection is free. *)
Variable E : Type.

Definition applyAnimated
    (instance : string -> AnimatedUpdater -> option AnimatedUserConfig ->
                list AnimatedResult)
    (selector : string) (updater : AnimatedUpdater)
    (options : option AnimatedUserConfig)
  : Promise.promise Z E :=
  fold_left (fun p result => Promise.resolve (styleId result) p)
    (instance selector updater options) Promise.Pending.

Definition clearAnimated
    (instance : string -> list Z -> list unit)
    (selector : string) (ids : list Z)
  : Promise.promise unit E :=
  fold_left (fun p _ => Promise.resolve tt p)
    (instance selector ids) Promise.Pending.

Definition viewportOffset (component : list ScrollOffset)
  : Promise.promise ScrollOffset E :=
  fold_left (fun p offset => Promise.resolve offset p)
    component Promise.Pending.

End Adapters.

(** ** Runs on the constants of the calendar *)

Example circularDiff_wx_1 : circularDiff wx_constants 0 2 = 1.
Proof. reflexivity. Qed.

Example circularDiff_wx_2 : circularDiff wx_constants 2 0 = -1.
Proof. reflexivity. Qed.

Example viewFlag_wx_schedule : viewFlag wx_constants "schedule"%string = 4.
Proof. reflexivity. Qed.

Example flagView_wx_4 : flagView wx_constants 4 = Some "schedule"%string.
Proof. reflexivity. Qed.

Example layoutHideCls_wx :
  layoutHideCls wx_constants (Some ["header"; "title"; "today"]%string)
  = "wc--hide-subinfo wc--hide-viewbar wc--hide-dragbar"%string.
Proof. reflexivity. Qed.

Example addLayoutHideCls_wx :
  addLayoutHideCls "wc--hide-subinfo"%string "today"%string
  = Some "wc--hide-subinfo wc--hide-today"%string.
Proof. reflexivity. Qed.

Example hasLayoutArea_wx :
  hasLayoutArea "wc--hide-subinfo wc--hide-today"%string "today"%string
  = Some false.
Proof. reflexivity. Qed.

(** ** The circular distance between panels *)

Section CircularDiff.

Variable K : constants.

Let N := CALENDAR_PANELS K.

(** The result is the direct difference moved by a whole number of
    turns of the circle: one turn up, one turn down, or none. *)
Lemma circularDiff_turns (t c : Z) :
  exists k : Z, -1 <= k <= 1 /\ circularDiff K t c = t - c + k * N.
Proof.
  unfold circularDiff. fold N.
  destruct (t <? c - N / 2).
  - destruct (t + N >? c + N / 2).
    + exists 0. lia.
    + exists 1. lia.
  - destruct (t >? c + N / 2).
    + exists (-1). lia.
    + exists 0. lia.
Qed.

Lemma circularDiff_range (t c : Z) :
  c - N <= t <= c + N ->
  - (N / 2) <= circularDiff K t c <= N / 2.
Proof.
  intros Ht. unfold circularDiff. fold N.
  assert (HN : 0 <= N) by lia.
  assert (Hhalf : 2 * (N / 2) <= N < 2 * (N / 2) + 2).
  { pose proof (Z.div_mod N 2 ltac:(lia)) as E.
    pose proof (Z.mod_pos_bound N 2 ltac:(lia)). lia. }
  destruct (Z.ltb_spec t (c - N / 2)).
  - destruct (Z.gtb_spec (t + N) (c + N / 2)); lia.
  - destruct (Z.gtb_spec t (c + N / 2)); lia.
Qed.

End CircularDiff.

(** C1. For all integers [c] and [t] with [t] between
    [c - CALENDAR_PANELS] and [c + CALENDAR_PANELS], the displacement
    [d = circularDiff(t, c)] has [|d| <= floor(CALENDAR_PANELS / 2)], and
    [c + d] is congruent to [t] modulo [CALENDAR_PANELS]: their difference
    is a multiple of it, and the two have the same remainder. *)
Theorem circularDiff_shortest_displacement (K : constants) (t c : Z) :
  c - CALENDAR_PANELS K <= t <= c + CALENDAR_PANELS K ->
  let d := circularDiff K t c in
  Z.abs d <= CALENDAR_PANELS K / 2
  /\ (CALENDAR_PANELS K | (c + d) - t)
  /\ (c + d) mod CALENDAR_PANELS K = t mod CALENDAR_PANELS K.
Proof.
  intros Ht d. subst d.
  pose proof (circularDiff_range K t c Ht) as Hr.
  destruct (circularDiff_turns K t c) as [k [_ Hk]].
  split; [lia|]. split.
  - exists k. lia.
  - rewrite Hk.
    replace (c + (t - c + k * CALENDAR_PANELS K))
      with (t + k * CALENDAR_PANELS K) by lia.
    apply Z_mod_plus_full.
Qed.

Lemma circularDiff_shortest_displacement_witness :
  2 - CALENDAR_PANELS wx_constants <= 0 <= 2 + CALENDAR_PANELS wx_constants
  /\ Z.abs (circularDiff wx_constants 0 2) <= CALENDAR_PANELS wx_constants / 2
  /\ (CALENDAR_PANELS wx_constants | (2 + circularDiff wx_constants 0 2) - 0)
  /\ (2 + circularDiff wx_constants 0 2) mod CALENDAR_PANELS wx_constants
     = 0 mod CALENDAR_PANELS wx_constants.
Proof.
  assert (H : 2 - CALENDAR_PANELS wx_constants <= 0
              <= 2 + CALENDAR_PANELS wx_constants) by (simpl; lia).
  split; [exact H|].
  exact (circularDiff_shortest_displacement wx_constants 0 2 H).
Defined.

(** ** Facts of the JavaScript operations *)

Module JSFacts.

Lemma indexOf_lower (l : list string) (x : string) : -1 <= JS.indexOf l x.
Proof.
  induction l as [|y l IH]; simpl; [lia|].
  destruct (String.eqb y x); [lia|].
  destruct (Z.ltb_spec (JS.indexOf l x) 0); lia.
Qed.

(** [indexOf] finds a value that the list holds, at a position of the
    list that holds it. *)
Lemma indexOf_In (l : list string) (x : string) :
  In x l ->
  0 <= JS.indexOf l x < Z.of_nat (List.length l)
  /\ nth_error l (Z.to_nat (JS.indexOf l x)) = Some x.
Proof.
  induction l as [|y l IH]; intros Hin; [destruct Hin|].
  cbn [JS.indexOf List.length].
  destruct (String.eqb_spec y x) as [->|Hne].
  - split; [lia|reflexivity].
  - destruct Hin as [Heq|Hin]; [congruence|].
    destruct (IH Hin) as [Hr Hn].
    destruct (Z.ltb_spec (JS.indexOf l x) 0); [lia|].
    split; [lia|].
    replace (Z.to_nat (JS.indexOf l x + 1))
      with (S (Z.to_nat (JS.indexOf l x))) by lia.
    exact Hn.
Qed.

Lemma indexOf_not_In (l : list string) (x : string) :
  ~ In x l -> JS.indexOf l x = -1.
Proof.
  induction l as [|y l IH]; intros Hn; [reflexivity|].
  cbn [JS.indexOf].
  destruct (String.eqb_spec y x) as [->|Hne].
  - exfalso. apply Hn. left. reflexivity.
  - rewrite IH by (intros H; apply Hn; right; exact H). reflexivity.
Qed.

Lemma to_int32_small (x : Z) :
  - 2 ^ 31 <= x < 2 ^ 31 -> JS.to_int32 x = x.
Proof.
  intros Hx. unfold JS.to_int32.
  destruct (Z_lt_le_dec x 0) as [Hneg|Hpos].
  - replace (x mod 2 ^ 32) with (x + 2 ^ 32).
    + destruct (Z.ltb_spec (x + 2 ^ 32) (2 ^ 31)); lia.
    + apply Z.mod_unique with (q := -1); lia.
  - rewrite Z.mod_small by lia.
    destruct (Z.ltb_spec x (2 ^ 31)); lia.
Qed.

(** Up to position 30 the shift of 1 is the power of two. *)
Lemma shl_1 (i : Z) : 0 <= i <= 30 -> JS.shl 1 i = 2 ^ i.
Proof.
  intros Hi. unfold JS.shl.
  rewrite (to_int32_small 1) by lia.
  rewrite (Z.mod_small i 32) by lia.
  rewrite Z.shiftl_1_l.
  apply to_int32_small.
  assert (0 < 2 ^ i) by (apply Z.pow_pos_nonneg; lia).
  assert (2 ^ i <= 2 ^ 30) by (apply Z.pow_le_mono_r; lia).
  lia.
Qed.

Lemma log2_index_pow2 (i : Z) :
  0 <= i -> JS.log2_index (2 ^ i) = Some (Z.to_nat i).
Proof.
  intros Hi. unfold JS.log2_index.
  rewrite Z.log2_pow2 by exact Hi.
  assert (0 < 2 ^ i) by (apply Z.pow_pos_nonneg; lia).
  destruct (Z.ltb_spec 0 (2 ^ i)); [|lia].
  rewrite Z.eqb_refl. reflexivity.
Qed.

(** An index means a positive power of two. *)
Lemma log2_index_Some (x : Z) (i : nat) :
  JS.log2_index x = Some i -> x = 2 ^ Z.of_nat i.
Proof.
  unfold JS.log2_index.
  destruct (Z.ltb_spec 0 x); simpl; [|discriminate].
  destruct (Z.eqb_spec (2 ^ Z.log2 x) x) as [E|]; [|discriminate].
  intros [= <-].
  rewrite Z2Nat.id by apply Z.log2_nonneg. symmetry. exact E.
Qed.

End JSFacts.

(** ** View flags *)

Section ViewFlags.

Variable K : constants.

(** A name of the list, not the empty one, has the flag of its own
    position. *)
Lemma viewFlag_recognized (name : string) :
  In name (VIEWS_values K) ->
  name <> ""%string ->
  viewFlag K name = JS.shl 1 (JS.indexOf (VIEWS_values K) name).
Proof.
  intros Hin Hne. unfold viewFlag.
  destruct (String.eqb_spec name ""); [contradiction|].
  destruct (JSFacts.indexOf_In _ _ Hin) as [Hr _].
  destruct (Z.ltb_spec (JS.indexOf (VIEWS_values K) name) 0); [lia|].
  reflexivity.
Qed.

Lemma viewFlag_empty : viewFlag K "" = viewFlag K (VIEWS_MONTH K).
Proof.
  unfold viewFlag. simpl.
  destruct (String.eqb_spec (VIEWS_MONTH K) "") as [->|]; reflexivity.
Qed.

Lemma viewFlag_unrecognized (name : string) :
  name <> ""%string ->
  ~ In name (VIEWS_values K) ->
  viewFlag K name = View_month K.
Proof.
  intros Hne Hnin. unfold viewFlag.
  destruct (String.eqb_spec name ""); [contradiction|].
  rewrite JSFacts.indexOf_not_In by exact Hnin. reflexivity.
Qed.

Lemma isView_enum (x : JS.value) :
  isView K x = true
  <-> exists z : Z,
      x = JS.Num z
      /\ In z [View_week K; View_month K; View_schedule K].
Proof.
  unfold isView. rewrite !orb_true_iff. split.
  - destruct x as [| |b|z|s]; simpl;
      try (intros [[H|H]|H]; discriminate H).
    intros [[H|H]|H]; apply Z.eqb_eq in H; exists z; simpl; auto.
  - intros [z [-> Hin]]. simpl in *. rewrite !Z.eqb_eq.
    destruct Hin as [H|[H|[H|[]]]]; auto.
Qed.

End ViewFlags.

(** C2. For every name of the list of recognized view names,
    [flagView(viewFlag(name))] is that name. The list is the one of
    [./constants]: its names are not empty and it has at most 31 of them,
    the positions whose flag [1 << position] is a positive number. *)
Theorem flagView_viewFlag_roundtrip (K : constants) (name : string) :
  In name (VIEWS_values K) ->
  name <> ""%string ->
  (List.length (VIEWS_values K) <= 31)%nat ->
  flagView K (viewFlag K name) = Some name.
Proof.
  intros Hin Hne Hlen.
  rewrite viewFlag_recognized by assumption.
  destruct (JSFacts.indexOf_In _ _ Hin) as [Hr Hn].
  unfold flagView. unfold CalendarView in *.
  rewrite JSFacts.shl_1 by lia.
  rewrite JSFacts.log2_index_pow2 by lia.
  exact Hn.
Qed.

Lemma flagView_viewFlag_roundtrip_witness :
  flagView wx_constants (viewFlag wx_constants "schedule")
  = Some "schedule"%string.
Proof.
  apply (flagView_viewFlag_roundtrip wx_constants "schedule").
  - simpl. auto.
  - discriminate.
  - simpl. lia.
Defined.

(** C3, as the code has it. [viewFlag("")] is the flag of [VIEWS.MONTH],
    which is [1 << position] for the position of the month view in the
    ordered list of names; and [viewFlag] of a string that is not empty
    and not in the list is [View.month]. Both fall back to the month view,
    wherever it stands in the list. *)
Theorem viewFlag_falls_back_to_month (K : constants) :
  viewFlag K "" = viewFlag K (VIEWS_MONTH K)
  /\ (In (VIEWS_MONTH K) (VIEWS_values K) ->
      viewFlag K ""
      = JS.shl 1 (JS.indexOf (VIEWS_values K) (VIEWS_MONTH K)))
  /\ (forall name : string,
        name <> ""%string ->
        ~ In name (VIEWS_values K) ->
        viewFlag K name = View_month K).
Proof.
  split; [apply viewFlag_empty|]. split.
  - intros Hin. unfold viewFlag. simpl.
    destruct (JSFacts.indexOf_In _ _ Hin) as [Hr _].
    destruct (Z.ltb_spec (JS.indexOf (VIEWS_values K) (VIEWS_MONTH K)) 0);
      [lia|reflexivity].
  - intros name. apply viewFlag_unrecognized.
Qed.

Lemma viewFlag_falls_back_to_month_witness :
  viewFlag wx_constants "" = 2 /\ viewFlag wx_constants "bogus" = 2.
Proof.
  destruct (viewFlag_falls_back_to_month wx_constants) as [_ [Hm Hu]].
  split.
  - rewrite Hm by (simpl; auto). reflexivity.
  - rewrite Hu; [reflexivity|discriminate|].
    simpl. intros [H|[H|[H|[]]]]; discriminate H.
Defined.

(** C3 as stated fails on the three views week, month, schedule: the
    flag of the view at position 0 is 1, and both [viewFlag("")] and
    [viewFlag("bogus")] are 2, the flag of the month view. *)
Lemma viewFlag_fallback_not_first :
  nth_error (view_flags wx_constants) 0 = Some 1
  /\ viewFlag wx_constants "week" = 1
  /\ viewFlag wx_constants "" <> 1
  /\ viewFlag wx_constants "bogus" <> 1.
Proof.
  repeat split; try reflexivity; vm_compute; discriminate.
Qed.

(** C9. [isView(x)] is true exactly when [x] is one of the flags of the
    recognized views, one for each position of the list of names, and
    false for every other value; with three views, 0 and 8 are not flags.
    The [View] enum of [./constants] holds the flags of the list. *)
Theorem isView_exactly_flags (K : constants) :
  (forall z : Z,
     In z [View_week K; View_month K; View_schedule K]
     <-> In z (view_flags K)) ->
  (forall x : JS.value,
     isView K x = true <-> exists z : Z, x = JS.Num z /\ In z (view_flags K))
  /\ (List.length (VIEWS_values K) = 3%nat ->
      isView K (JS.Num 0) = false /\ isView K (JS.Num 8) = false).
Proof.
  intros Henum.
  assert (Hiff : forall x : JS.value,
             isView K x = true
             <-> exists z : Z, x = JS.Num z /\ In z (view_flags K)).
  { intros x. rewrite isView_enum. split; intros [z [Hx Hin]]; exists z;
      (split; [exact Hx|apply Henum; exact Hin]). }
  split; [exact Hiff|].
  intros Hlen.
  assert (Hflags : view_flags K = [1; 2; 4]).
  { unfold view_flags. rewrite Hlen. reflexivity. }
  split; apply not_true_is_false; intros H; apply Hiff in H;
    destruct H as [z [[= <-] Hin]]; rewrite Hflags in Hin; simpl in Hin; lia.
Qed.

Lemma isView_exactly_flags_witness :
  (isView wx_constants (JS.Num 4) = true
   <-> exists z : Z, JS.Num 4 = JS.Num z /\ In z (view_flags wx_constants))
  /\ isView wx_constants (JS.Num 0) = false
  /\ isView wx_constants (JS.Num 8) = false.
Proof.
  assert (Henum : forall z : Z,
             In z [View_week wx_constants; View_month wx_constants;
                   View_schedule wx_constants]
             <-> In z (view_flags wx_constants)).
  { intros z. vm_compute. tauto. }
  destruct (isView_exactly_flags wx_constants Henum) as [Hiff H08].
  split; [apply Hiff|].
  apply H08. reflexivity.
Defined.

(** ** Strings *)

Module StringFacts.

Local Open Scope string_scope.

Lemma append_nil_r (s : string) : s ++ "" = s.
Proof. induction s as [|c s IH]; simpl; [|rewrite IH]; reflexivity. Qed.

Lemma append_assoc (a b c : string) : (a ++ b) ++ c = a ++ b ++ c.
Proof. induction a as [|x a IH]; simpl; [|rewrite IH]; reflexivity. Qed.

Lemma occurs_here (t pre post : string) : occurs t (pre ++ t ++ post).
Proof. exists pre, post. reflexivity. Qed.

Lemma occurs_cons (t s : string) (c : ascii) :
  occurs t s -> occurs t (String c s).
Proof.
  intros [pre [post ->]]. exists (String c pre), post. reflexivity.
Qed.

Lemma concat_single (sep x : string) : String.concat sep [x] = x.
Proof. reflexivity. Qed.

End StringFacts.

(** ** The hide-token patterns *)

Module RegExpFacts.

Import RegExp.
Local Open Scope string_scope.

Lemma literal_app (a b : string) :
  literal (a ++ b) = literal a && literal b.
Proof.
  induction a as [|c a IH]; simpl; [reflexivity|].
  rewrite IH, andb_assoc. reflexivity.
Qed.

Lemma literal_not_backslash (c : ascii) :
  is_syntax_char c = false -> Ascii.eqb c "\" = false.
Proof.
  unfold is_syntax_char, syntax_chars. simpl. intros H.
  apply orb_false_iff in H. tauto.
Qed.

Lemma literal_not_star (c : ascii) :
  is_syntax_char c = false -> Ascii.eqb c "*" = false.
Proof.
  unfold is_syntax_char, syntax_chars. simpl. intros H.
  repeat (apply orb_false_iff in H; destruct H as [? H]). assumption.
Qed.

(** A literal string followed by [\s*] is read as its characters and
    the starred class. *)
Lemma parse_literal_spaces (s : string) :
  literal s = true ->
  parse (s ++ "\s*") = Some (lits s ++ [(Space, Star)])%list.
Proof.
  induction s as [|c s IH]; intros Hlit; [reflexivity|].
  simpl in Hlit. apply andb_true_iff in Hlit. destruct Hlit as [Hc Hs].
  apply negb_true_iff in Hc.
  specialize (IH Hs).
  change (String c s ++ "\s*") with (String c (s ++ "\s*")).
  cbn [parse lits List.app].
  rewrite (literal_not_backslash c Hc), Hc.
  destruct s as [|q s'].
  - reflexivity.
  - change (String q s' ++ "\s*") with (String q (s' ++ "\s*")) in *.
    simpl in Hs. apply andb_true_iff in Hs. destruct Hs as [Hq _].
    apply negb_true_iff in Hq.
    rewrite (literal_not_star q Hq), IH. reflexivity.
Qed.

(** The starred class matches everywhere. *)
Lemma match_here_spaces (s : string) : match_here [(Space, Star)] s = true.
Proof.
  induction s as [|c s IH]; [reflexivity|].
  simpl. apply orb_true_r.
Qed.

(** The characters of a string match at the start exactly when the
    string starts there. *)
Lemma match_here_lits (l : string) (r : regexp) (s : string) :
  match_here (lits l ++ r)%list s = true
  <-> exists post : string, s = l ++ post /\ match_here r post = true.
Proof.
  revert s. induction l as [|c l IH]; intros s; simpl.
  - split.
    + intros H. exists s. auto.
    + intros [post [-> H]]. exact H.
  - destruct s as [|d s].
    + split; [discriminate|]. intros [post [H _]]. discriminate H.
    + rewrite andb_true_iff, IH. split.
      * intros [Hc [post [-> H]]]. apply Ascii.eqb_eq in Hc. subst d.
        exists post. auto.
      * intros [post [[= -> ->] H]]. split; [apply Ascii.eqb_refl|].
        exists post. auto.
Qed.

(** [test] looks for a match at every position. *)
Lemma test_spec (r : regexp) (s : string) :
  test r s = true
  <-> exists pre post : string,
      s = pre ++ post /\ match_here r post = true.
Proof.
  induction s as [|c s IH]; cbn [test]; rewrite orb_true_iff.
  - split.
    + intros [H|H]; [|discriminate]. exists "", "". auto.
    + intros [pre [post [E H]]]. left.
      destruct pre; [|discriminate]. simpl in E. subst post. exact H.
  - rewrite IH. split.
    + intros [H|[pre [post [-> H]]]].
      * exists "", (String c s). auto.
      * exists (String c pre), post. auto.
    + intros [pre [post [E H]]]. destruct pre as [|d pre]; simpl in E.
      * left. subst post. exact H.
      * right. injection E as -> ->. exists pre, post. auto.
Qed.

(** The pattern of a literal string finds its occurrences. *)
Lemma test_literal_spaces (l s : string) :
  test (lits l ++ [(Space, Star)])%list s = true <-> occurs l s.
Proof.
  rewrite test_spec. unfold occurs. split.
  - intros [pre [post [-> H]]]. apply match_here_lits in H.
    destruct H as [post' [-> _]]. exists pre, post'. reflexivity.
  - intros [pre [post ->]]. exists pre, (l ++ post). split; [reflexivity|].
    apply match_here_lits. exists post. split; [reflexivity|].
    apply match_here_spaces.
Qed.

(** The pattern of the hide-token of an area with a literal name. *)
Lemma hide_RegExp_literal (area : LayoutArea) :
  literal area = true ->
  hide_RegExp area = Some (lits (LHCP ++ area) ++ [(Space, Star)])%list.
Proof.
  intros Hlit. unfold hide_RegExp.
  rewrite <- StringFacts.append_assoc.
  apply parse_literal_spaces.
  rewrite literal_app, Hlit. reflexivity.
Qed.

End RegExpFacts.

(** ** The hide classes of the layout *)

Section Layout.

Variable K : constants.

Local Open Scope string_scope.

Lemma includes_In (l : list string) (x : string) :
  JS.includes l x = true <-> In x l.
Proof.
  unfold JS.includes. rewrite existsb_exists. split.
  - intros [y [Hin Heq]]. apply String.eqb_eq in Heq. subst y. exact Hin.
  - intros Hin. exists x. split; [exact Hin|apply String.eqb_refl].
Qed.

Lemma filter_none (f : string -> bool) (l : list string) :
  (forall x : string, In x l -> f x = false) -> filter f l = [].
Proof.
  induction l as [|y l IH]; intros Hf; [reflexivity|].
  cbn [filter]. rewrite (Hf y (or_introl eq_refl)).
  apply IH. intros x Hx. apply Hf. right. exact Hx.
Qed.

(** A filter that keeps one value of a list without duplicates keeps
    one element. *)
Lemma filter_only (f : string -> bool) (a : string) (l : list string) :
  NoDup l ->
  In a l ->
  (forall x : string, In x l -> (f x = true <-> x = a)) ->
  filter f l = [a].
Proof.
  induction l as [|y l IH]; intros Hnd Hin Hf; [destruct Hin|].
  inversion Hnd as [|? ? Hy Hnd']; subst.
  assert (Hrest : forall x : string, In x l -> (f x = true <-> x = a)).
  { intros x Hx. apply Hf. right. exact Hx. }
  cbn [filter].
  destruct (string_dec y a) as [->|Hne].
  - rewrite (proj2 (Hf a (or_introl eq_refl)) eq_refl).
    f_equal. apply filter_none.
    intros x Hx. apply not_true_is_false. intros Hfx.
    apply Hrest in Hfx; [|exact Hx]. subst x. contradiction.
  - destruct (f y) eqn:Hfy.
    + apply (Hf y (or_introl eq_refl)) in Hfy. contradiction.
    + destruct Hin as [Heq|Hin]; [contradiction|].
      apply IH; assumption.
Qed.

(** A list without duplicates, of two elements or more, has an element
    other than a given one. *)
Lemma NoDup_other (a : string) (l : list string) :
  NoDup l -> (2 <= List.length l)%nat -> exists b : string, In b l /\ b <> a.
Proof.
  intros Hnd Hlen.
  destruct l as [|x [|y l]]; simpl in Hlen; try lia.
  destruct (string_dec x a) as [->|Hx].
  - exists y. split; [simpl; auto|].
    inversion Hnd as [|? ? Hnin _]; subst. intros ->. apply Hnin.
    left. reflexivity.
  - exists x. split; [simpl; auto|exact Hx].
Qed.

Lemma layoutHideCls_full : layoutHideCls K (Some (FULL_LAYOUT K)) = "".
Proof.
  unfold layoutHideCls.
  destruct (FULL_LAYOUT K) as [|x l] eqn:E; [reflexivity|].
  replace (filter (fun item => negb (JS.includes (x :: l) item)) (x :: l))
    with (@nil string); [reflexivity|].
  symmetry. apply filter_none.
  intros y Hy. apply negb_false_iff, includes_In. exact Hy.
Qed.

Lemma layoutHideCls_one (a : LayoutArea) (layout : list LayoutArea) :
  NoDup (FULL_LAYOUT K) ->
  layout <> [] ->
  In a (FULL_LAYOUT K) ->
  ~ In a layout ->
  (forall b : LayoutArea, In b (FULL_LAYOUT K) -> b <> a -> In b layout) ->
  layoutHideCls K (Some layout) = LHCP ++ a.
Proof.
  intros Hnd Hne Ha Hout Hrest. unfold layoutHideCls.
  destruct layout as [|x l]; [contradiction|].
  rewrite (filter_only _ a); [reflexivity|exact Hnd|exact Ha|].
  intros y Hy. rewrite negb_true_iff. split.
  - intros Hf. destruct (string_dec y a) as [|Hya]; [assumption|].
    apply (Hrest y Hy) in Hya. apply includes_In in Hya. congruence.
  - intros ->. apply not_true_is_false. intros Hf.
    apply includes_In in Hf. contradiction.
Qed.

(** After a token is added it is found. *)
Lemma token_added (cls area : string) :
  occurs (LHCP ++ area) (cls ++ " " ++ LHCP ++ area).
Proof.
  exists (cls ++ " "), "".
  rewrite StringFacts.append_nil_r, StringFacts.append_assoc. reflexivity.
Qed.

(** The token of a hidden area occurs in the classes of the layout. *)
Lemma occurs_concat (t : string) (l : list string) :
  In t l -> occurs t (String.concat " " l).
Proof.
  induction l as [|x l IH]; intros Hin; [destruct Hin|].
  destruct l as [|y l].
  - destruct Hin as [->|[]]. exists "", "". simpl.
    rewrite StringFacts.append_nil_r. reflexivity.
  - cbn [String.concat]. destruct Hin as [->|Hin].
    + exists "", (" " ++ String.concat " " (y :: l)). reflexivity.
    + destruct (IH Hin) as [pre [post E]].
      exists (x ++ " " ++ pre), post.
      cbn [String.concat] in E. rewrite E.
      rewrite !StringFacts.append_assoc. reflexivity.
Qed.

Lemma layoutHideCls_hidden (a : LayoutArea) (layout : list LayoutArea) :
  layout <> [] ->
  In a (FULL_LAYOUT K) ->
  ~ In a layout ->
  occurs (LHCP ++ a) (layoutHideCls K (Some layout)).
Proof.
  intros Hne Ha Hout. unfold layoutHideCls.
  destruct layout as [|x l]; [contradiction|].
  apply occurs_concat.
  apply (in_map (fun item => LHCP ++ item)).
  apply filter_In. split; [exact Ha|].
  apply negb_true_iff, not_true_is_false. intros Hf.
  apply includes_In in Hf. contradiction.
Qed.

End Layout.

(** C6. [layoutHideCls] of the empty list of visible areas is the empty
    string; [layoutHideCls] of the full list of areas is the empty string;
    and [layoutHideCls] of the full list less one area is one hide-token,
    the token of that area. The full list is the one of [./constants]: two
    areas or more, each listed once. *)
Theorem layoutHideCls_empty_full_allButOne (K : constants) :
  NoDup (FULL_LAYOUT K) ->
  (2 <= List.length (FULL_LAYOUT K))%nat ->
  layoutHideCls K (Some []) = ""%string
  /\ layoutHideCls K (Some (FULL_LAYOUT K)) = ""%string
  /\ (forall (a : LayoutArea) (allButOne : list LayoutArea),
        In a (FULL_LAYOUT K) ->
        ~ In a allButOne ->
        (forall b : LayoutArea,
           In b (FULL_LAYOUT K) -> b <> a -> In b allButOne) ->
        layoutHideCls K (Some allButOne) = (LHCP ++ a)%string).
Proof.
  intros Hnd Hlen. split; [reflexivity|]. split; [apply layoutHideCls_full|].
  intros a L Ha Hout Hrest.
  apply layoutHideCls_one; try assumption.
  destruct (NoDup_other a _ Hnd Hlen) as [b [Hb Hba]].
  intros ->. exact (Hrest b Hb Hba).
Qed.

Lemma layoutHideCls_empty_full_allButOne_witness :
  layoutHideCls wx_constants (Some []) = ""%string
  /\ layoutHideCls wx_constants (Some (FULL_LAYOUT wx_constants)) = ""%string
  /\ layoutHideCls wx_constants
       (Some ["header"; "title"; "subinfo"; "viewbar"; "dragbar"]%string)
     = "wc--hide-today"%string.
Proof.
  assert (Hnd : NoDup (FULL_LAYOUT wx_constants)).
  { simpl. repeat constructor; simpl; intuition discriminate. }
  assert (Hlen : (2 <= List.length (FULL_LAYOUT wx_constants))%nat)
    by (simpl; lia).
  destruct (layoutHideCls_empty_full_allButOne wx_constants Hnd Hlen)
    as [He [Hf Hone]].
  split; [exact He|]. split; [exact Hf|].
  apply (Hone "today"%string).
  - simpl. auto 10.
  - simpl. intuition discriminate.
  - simpl. intros b Hb Hne.
    destruct Hb as [<-|[<-|[<-|[<-|[<-|[<-|[]]]]]]]; auto 10; contradiction.
Defined.

(** C7. [addLayoutHideCls] is idempotent: for every class string and
    every area, adding the hide-token of the area a second time gives the
    string that adding it once gives; and adding the token of an area
    whose token is there already gives the string back unchanged. An area
    is a [LayoutArea]: a name with no character of the pattern syntax. *)
Theorem addLayoutHideCls_idempotent (cls : string) (area : LayoutArea) :
  RegExp.literal area = true ->
  exists once : string,
    addLayoutHideCls cls area = Some once
    /\ addLayoutHideCls once area = Some once
    /\ (occurs (LHCP ++ area) cls -> once = cls).
Proof.
  intros Hlit. unfold addLayoutHideCls.
  rewrite (RegExpFacts.hide_RegExp_literal area Hlit).
  destruct (RegExp.test _ cls) eqn:Htest.
  - exists cls. split; [reflexivity|]. rewrite Htest. split; reflexivity.
  - eexists. split; [reflexivity|]. split.
    + rewrite (proj2 (RegExpFacts.test_literal_spaces _ _)
                 (token_added cls area)).
      reflexivity.
    + intros Hocc. apply RegExpFacts.test_literal_spaces in Hocc.
      congruence.
Qed.

Lemma addLayoutHideCls_idempotent_witness :
  exists once : string,
    addLayoutHideCls "wc--hide-title"%string "today"%string = Some once
    /\ addLayoutHideCls once "today"%string = Some once
    /\ (occurs (LHCP ++ "today")%string "wc--hide-title"%string ->
        once = "wc--hide-title"%string).
Proof.
  apply (addLayoutHideCls_idempotent "wc--hide-title" "today"%string).
  reflexivity.
Defined.

(** Outside the areas the second call may add again: the pattern of the
    name [\s] asks for a blank after the prefix, and the token that is
    added has none. *)
Example addLayoutHideCls_twice_class_name :
  addLayoutHideCls ""%string "\s"%string = Some " wc--hide-\s"%string
  /\ addLayoutHideCls " wc--hide-\s"%string "\s"%string
     = Some " wc--hide-\s wc--hide-\s"%string.
Proof. split; reflexivity. Qed.

(** C8. For every class string and every area, [hasLayoutArea(cls, area)]
    is true if and only if the hide-token of the area, the prefix followed
    by the name of the area, does not occur in [cls]; so it is false on
    the string that [addLayoutHideCls] gives for the area, and false on
    the string that [layoutHideCls] gives for a layout that leaves the
    area out. An area is a [LayoutArea], as for C7. *)
Theorem hasLayoutArea_iff_token_absent (K : constants)
    (cls : string) (area : LayoutArea) :
  RegExp.literal area = true ->
  (exists visible : bool,
     hasLayoutArea cls area = Some visible
     /\ (visible = true <-> ~ occurs (LHCP ++ area) cls))
  /\ (forall added : string,
        addLayoutHideCls cls area = Some added ->
        hasLayoutArea added area = Some false)
  /\ (forall layout : list LayoutArea,
        layout <> [] ->
        In area (FULL_LAYOUT K) ->
        ~ In area layout ->
        hasLayoutArea (layoutHideCls K (Some layout)) area = Some false).
Proof.
  intros Hlit.
  assert (Hhas : forall s : string,
             hasLayoutArea s area
             = Some (negb (RegExp.test
                             (RegExp.lits (LHCP ++ area)
                              ++ [(RegExp.Space, RegExp.Star)]) s))).
  { intros s. unfold hasLayoutArea.
    rewrite (RegExpFacts.hide_RegExp_literal area Hlit). reflexivity. }
  assert (Hocc : forall s : string,
             occurs (LHCP ++ area) s -> hasLayoutArea s area = Some false).
  { intros s Hs. rewrite Hhas.
    rewrite (proj2 (RegExpFacts.test_literal_spaces _ _) Hs). reflexivity. }
  split; [|split].
  - eexists. split; [apply Hhas|].
    rewrite negb_true_iff, <- not_true_iff_false.
    rewrite RegExpFacts.test_literal_spaces. reflexivity.
  - intros added Hadd. apply Hocc.
    unfold addLayoutHideCls in Hadd.
    rewrite (RegExpFacts.hide_RegExp_literal area Hlit) in Hadd.
    destruct (RegExp.test _ cls) eqn:Htest; injection Hadd as <-.
    + apply RegExpFacts.test_literal_spaces. exact Htest.
    + apply token_added.
  - intros layout Hne Hin Hout. apply Hocc.
    apply layoutHideCls_hidden; assumption.
Qed.

Lemma hasLayoutArea_iff_token_absent_witness :
  hasLayoutArea "wc--hide-title wc--hide-today"%string "today"%string
  = Some false
  /\ hasLayoutArea "wc--hide-title"%string "today"%string = Some true.
Proof.
  destruct (hasLayoutArea_iff_token_absent wx_constants
              "wc--hide-title" "today"%string eq_refl) as [_ [Hadd _]].
  split; [|reflexivity].
  apply Hadd. reflexivity.
Defined.

(** ** The once-emitter *)

Module OnceEmitterFacts.

Import OnceEmitter.

(** Once the counter has left zero a call triggers no event, and the
    counter stays away from zero. *)
Lemma step_spent (event : string) (c : call) (st : state) :
  0 < emits st ->
  triggered (step (onceEmitter event) st c) = triggered st
  /\ 0 < emits (step (onceEmitter event) st c).
Proof.
  intros Hpos. destruct c as [detail|]; simpl.
  - destruct (Z.eqb_spec (emits st) 0) as [E|_]; [lia|].
    simpl. split; [reflexivity|lia].
  - split; [reflexivity|lia].
Qed.

Lemma run_spent (event : string) (calls : list call) (st : state) :
  0 < emits st ->
  triggered (run (onceEmitter event) calls st) = triggered st.
Proof.
  revert st. induction calls as [|c calls IH]; intros st Hpos;
    [reflexivity|].
  destruct (step_spent event c st Hpos) as [Ht He].
  change (run (onceEmitter event) (c :: calls) st)
    with (run (onceEmitter event) calls (step (onceEmitter event) st c)).
  rewrite IH by exact He. exact Ht.
Qed.

End OnceEmitterFacts.

(** C4. The once-emitter fires the event at most once. When the first
    call is [emit], it triggers the event once, with its arguments, and no
    later call of either method triggers it again; when the first call is
    [cancel], no later [emit] triggers the event. Whatever the calls, the
    instance gets at most one event. *)
Theorem onceEmitter_at_most_once
    (event : string) (instance : list (string * list JS.value)) :
  let e := OnceEmitter.onceEmitter event in
  let st0 := OnceEmitter.init instance in
  (forall (detail : list JS.value) (rest : list OnceEmitter.call),
     OnceEmitter.triggered
       (OnceEmitter.run e (OnceEmitter.Emit detail :: rest) st0)
     = instance ++ [(event, detail)])
  /\ (forall rest : list OnceEmitter.call,
        OnceEmitter.triggered
          (OnceEmitter.run e (OnceEmitter.Cancel :: rest) st0)
        = instance)
  /\ (forall calls : list OnceEmitter.call,
        (List.length (OnceEmitter.triggered (OnceEmitter.run e calls st0))
         <= List.length instance + 1)%nat).
Proof.
  intros e st0.
  assert (Hemit : forall detail rest,
             OnceEmitter.triggered
               (OnceEmitter.run e (OnceEmitter.Emit detail :: rest) st0)
             = instance ++ [(event, detail)]).
  { intros detail rest. subst e st0.
    change (OnceEmitter.run ?e (?c :: rest) ?st)
      with (OnceEmitter.run e rest (OnceEmitter.step e st c)).
    rewrite OnceEmitterFacts.run_spent; [reflexivity|simpl; lia]. }
  assert (Hcancel : forall rest,
             OnceEmitter.triggered
               (OnceEmitter.run e (OnceEmitter.Cancel :: rest) st0)
             = instance).
  { intros rest. subst e st0.
    change (OnceEmitter.run ?e (?c :: rest) ?st)
      with (OnceEmitter.run e rest (OnceEmitter.step e st c)).
    rewrite OnceEmitterFacts.run_spent; [reflexivity|simpl; lia]. }
  split; [exact Hemit|]. split; [exact Hcancel|].
  intros [|[detail|] rest].
  - simpl. lia.
  - rewrite Hemit, length_app. simpl. lia.
  - rewrite Hcancel. lia.
Qed.

(** ** The query of node rects *)

Section NodeRectFacts.

Variable Rect : Type.

Import Promise.

(** A settled promise is not changed by a later call of the callback. *)
Lemma nodeRect_settled (selector : string)
    (calls : list (BoundingClientRects Rect))
    (p : promise (BoundingClientRects Rect) string) :
  p <> Pending ->
  fold_left (nodeRect_callback Rect selector) calls p = p.
Proof.
  revert p. induction calls as [|rects calls IH]; intros p Hp;
    [reflexivity|].
  cbn [fold_left].
  assert (E : nodeRect_callback Rect selector p rects = p).
  { unfold nodeRect_callback.
    destruct p; [contradiction| |];
      destruct (negb (List.length rects =? 0)%nat); reflexivity. }
  rewrite E. apply IH. exact Hp.
Qed.

(** While the host has not called the callback the promise is pending. *)
Lemma nodeRect_pending (component : ComponentInstance Rect)
    (selector : string) :
  component selector = [] -> nodeRect Rect component selector = Pending.
Proof. intros E. unfold nodeRect. rewrite E. reflexivity. Qed.

(** The first call of the callback settles the promise. *)
Lemma nodeRect_first (component : ComponentInstance Rect)
    (selector : string) (rects : BoundingClientRects Rect)
    (more : list (BoundingClientRects Rect)) :
  component selector = rects :: more ->
  nodeRect Rect component selector
  = match rects with
    | [] => Rejected ("view not found by selector " ++ selector)%string
    | _ :: _ => Fulfilled rects
    end.
Proof.
  intros E. unfold nodeRect. rewrite E. cbn [fold_left].
  destruct rects as [|r rects]; cbn; apply nodeRect_settled; discriminate.
Qed.

End NodeRectFacts.

(** C5. The promise of the node-rect query rejects if and only if the
    selector matches no node; the value it rejects with is a string, the
    message that ends with the selector; and when a node matches, the
    promise resolves with the list of rects. The rects are the ones the
    host calls the callback with. *)
Theorem nodeRect_rejects_iff_no_node (Rect : Type)
    (component : ComponentInstance Rect) (selector : string)
    (rects : BoundingClientRects Rect)
    (more : list (BoundingClientRects Rect)) :
  component selector = rects :: more ->
  ((exists message : string,
      nodeRect Rect component selector = Promise.Rejected message)
   <-> rects = [])
  /\ (rects = [] ->
      nodeRect Rect component selector
      = Promise.Rejected ("view not found by selector " ++ selector)%string
      /\ occurs selector ("view not found by selector " ++ selector)%string)
  /\ (rects <> [] ->
      nodeRect Rect component selector = Promise.Fulfilled rects).
Proof.
  intros E. rewrite (nodeRect_first Rect component selector rects more E).
  split; [|split].
  - destruct rects as [|r rects]; split.
    + reflexivity.
    + intros _. eexists. reflexivity.
    + intros [message H]. discriminate H.
    + discriminate.
  - intros ->. split; [reflexivity|].
    exists "view not found by selector "%string, ""%string.
    rewrite StringFacts.append_nil_r. reflexivity.
  - destruct rects as [|r rects]; [contradiction|reflexivity].
Qed.

Lemma nodeRect_rejects_iff_no_node_witness :
  nodeRect nat (fun _ => [[]]) ".wc__panel"
  = Promise.Rejected "view not found by selector .wc__panel"%string
  /\ nodeRect nat (fun _ => [[7%nat; 9%nat]]) ".wc__panel"
     = Promise.Fulfilled [7%nat; 9%nat].
Proof.
  split.
  - apply (nodeRect_rejects_iff_no_node nat (fun _ => [[]]) ".wc__panel"
             [] [] eq_refl).
    reflexivity.
  - apply (nodeRect_rejects_iff_no_node nat (fun _ => [[7%nat; 9%nat]])
             ".wc__panel" [7%nat; 9%nat] [] eq_refl).
    discriminate.
Defined.

(** ** Ticks *)

Section Ticks.

(** The loop of [severalTicks] on a count that is not negative is that
    many ticks in a row. *)
Lemma severalTicks_ticks (m : nat) :
  eutt eq (severalTicks (Z.of_nat m)) (ticks m).
Proof.
  induction m as [|m IH]; unfold severalTicks.
  - rewrite unfold_iter. cbn. rewrite bind_ret_l. reflexivity.
  - rewrite unfold_iter.
    destruct (Z.eqb_spec (Z.of_nat (S m)) 0) as [E|_]; [lia|].
    unfold nextTick. rewrite !bind_bind.
    cbn [ticks].
    eapply eutt_clo_bind; [reflexivity|].
    intros [] [] _.
    rewrite !bind_ret_l, tau_eutt.
    replace (Z.of_nat (S m) - 1) with (Z.of_nat m) by lia.
    exact IH.
Qed.

(** The host's record of [n] ticks in a row. *)
Lemma ticks_log (n : nat) (s : host_state) :
  eutt eq (interp_state host (ticks n) s)
    (Ret ({| next_tick := next_tick s + n;
             tick_log := tick_log s ++ sequential_log (next_tick s) n |},
          tt)).
Proof.
  revert s. induction n as [|n IH]; intros s; cbn [ticks sequential_log].
  - rewrite interp_state_ret, Nat.add_0_r, app_nil_r.
    destruct s; reflexivity.
  - rewrite interp_state_bind, interp_state_trigger. cbn.
    rewrite bind_ret_l. cbn. rewrite IH. cbn.
    rewrite <- app_assoc, Nat.add_succ_r. reflexivity.
Qed.

(** In the log of ticks in a row the request of a tick comes right
    after the callback of the tick before it. *)
Lemma sequential_log_nth (k n j : nat) :
  (j < n)%nat ->
  nth_error (sequential_log k n) (2 * j) = Some (TickRequested (k + j))
  /\ nth_error (sequential_log k n) (2 * j + 1) = Some (TickFired (k + j)).
Proof.
  revert k j. induction n as [|n IH]; intros k j Hj; [lia|].
  destruct j as [|j].
  - rewrite Nat.add_0_r. split; reflexivity.
  - replace (2 * S j)%nat with (S (S (2 * j))) by lia.
    replace (k + S j)%nat with (S k + j)%nat by lia.
    cbn [sequential_log nth_error Nat.add].
    apply IH. lia.
Qed.

Lemma sequential_log_length (k n : nat) :
  List.length (sequential_log k n) = (2 * n)%nat.
Proof.
  revert k. induction n as [|n IH]; intros k; [reflexivity|].
  cbn [sequential_log List.length]. rewrite IH. lia.
Qed.

End Ticks.

(** C10. For every integer [n] that is not negative, [severalTicks(n)]
    waits for [n] ticks one after the other and then returns: the program
    is [n] requests of a tick in a row, each made when the callback of the
    one before has been called; on the host this leaves the log of [n]
    ticks, [2 * n] entries in which tick [j] is requested at entry [2 * j]
    and its callback called at entry [2 * j + 1]; and the promise is
    resolved. *)
Theorem severalTicks_sequential (n : Z) :
  0 <= n ->
  eutt eq (severalTicks n) (ticks (Z.to_nat n))
  /\ (forall s : host_state,
        eutt eq (interp_state host (severalTicks n) s)
          (Ret ({| next_tick := next_tick s + Z.to_nat n;
                   tick_log := tick_log s
                               ++ sequential_log (next_tick s) (Z.to_nat n) |},
                tt)))
  /\ (forall k : nat,
        List.length (sequential_log k (Z.to_nat n)) = (2 * Z.to_nat n)%nat)
  /\ (forall k j : nat,
        (j < Z.to_nat n)%nat ->
        nth_error (sequential_log k (Z.to_nat n)) (2 * j)
        = Some (TickRequested (k + j))
        /\ nth_error (sequential_log k (Z.to_nat n)) (2 * j + 1)
           = Some (TickFired (k + j))).
Proof.
  intros Hn.
  assert (Hticks : eutt eq (severalTicks n) (ticks (Z.to_nat n))).
  { rewrite <- (Z2Nat.id n Hn) at 1. apply severalTicks_ticks. }
  split; [exact Hticks|]. split; [|split].
  - intros s. rewrite Hticks. apply ticks_log.
  - intros k. apply sequential_log_length.
  - intros k j. apply sequential_log_nth.
Qed.

Lemma severalTicks_sequential_witness :
  eutt eq (severalTicks 2) (ticks 2)
  /\ eutt eq
       (interp_state host (severalTicks 2)
          {| next_tick := 0; tick_log := [] |})
       (Ret ({| next_tick := 2;
                tick_log := [TickRequested 0; TickFired 0;
                             TickRequested 1; TickFired 1] |}, tt)).
Proof.
  assert (H : 0 <= 2) by lia.
  destruct (severalTicks_sequential 2 H) as [Ht [Hlog _]].
  split; [exact Ht|].
  exact (Hlog {| next_tick := 0; tick_log := [] |}).
Defined.

(** ** More on the circular distance *)

(** X1. Inside one turn on each side the distance from [c] to [t] is the
    opposite of the distance from [t] to [c]. *)
Theorem circularDiff_antisymmetric (K : constants) (t c : Z) :
  c - CALENDAR_PANELS K <= t <= c + CALENDAR_PANELS K ->
  circularDiff K c t = - circularDiff K t c.
Proof.
  intros Ht. unfold circularDiff.
  set (N := CALENDAR_PANELS K) in *.
  assert (Hhalf : 2 * (N / 2) <= N < 2 * (N / 2) + 2).
  { pose proof (Z.div_mod N 2 ltac:(lia)).
    pose proof (Z.mod_pos_bound N 2 ltac:(lia)). lia. }
  destruct (Z.ltb_spec t (c - N / 2));
    destruct (Z.ltb_spec c (t - N / 2));
    repeat match goal with
           | |- context [?a >? ?b] => destruct (Z.gtb_spec a b)
           end; lia.
Qed.

Lemma circularDiff_antisymmetric_witness :
  circularDiff wx_constants 2 0 = - circularDiff wx_constants 0 2.
Proof.
  apply (circularDiff_antisymmetric wx_constants 0 2). simpl. lia.
Defined.

(** X2. With a positive number of panels the distance is within half a turn
    exactly when the target is within a turn and a half of the current
    panel: the target is moved by one turn at most. *)
Theorem circularDiff_bound_domain (K : constants) (t c : Z) :
  0 < CALENDAR_PANELS K ->
  Z.abs (circularDiff K t c) <= CALENDAR_PANELS K / 2
  <-> c - CALENDAR_PANELS K - CALENDAR_PANELS K / 2 <= t
      <= c + CALENDAR_PANELS K + CALENDAR_PANELS K / 2.
Proof.
  intros HN. unfold circularDiff.
  set (N := CALENDAR_PANELS K) in *.
  assert (Hhalf : 2 * (N / 2) <= N < 2 * (N / 2) + 2).
  { pose proof (Z.div_mod N 2 ltac:(lia)).
    pose proof (Z.mod_pos_bound N 2 ltac:(lia)). lia. }
  destruct (Z.ltb_spec t (c - N / 2)).
  - destruct (Z.gtb_spec (t + N) (c + N / 2)); lia.
  - destruct (Z.gtb_spec t (c + N / 2)); lia.
Qed.

Lemma circularDiff_bound_domain_witness :
  Z.abs (circularDiff wx_constants 6 2) <= CALENDAR_PANELS wx_constants / 2
  <-> 2 - CALENDAR_PANELS wx_constants - CALENDAR_PANELS wx_constants / 2
      <= 6
      <= 2 + CALENDAR_PANELS wx_constants + CALENDAR_PANELS wx_constants / 2.
Proof.
  apply (circularDiff_bound_domain wx_constants 6 2). reflexivity.
Defined.

(** ** More on the view flags *)

Section ViewFlagsMore.

Variable K : constants.

Lemma indexOf_upper (l : list string) (x : string) :
  JS.indexOf l x < Z.of_nat (List.length l).
Proof.
  induction l as [|y l IH]; cbn [JS.indexOf List.length]; [lia|].
  destruct (String.eqb y x); [lia|].
  destruct (Z.ltb_spec (JS.indexOf l x) 0); lia.
Qed.

(** In a list without duplicates [indexOf] gives the position of each
    element back. *)
Lemma indexOf_nth_NoDup (l : list string) (i : nat) (x : string) :
  NoDup l -> nth_error l i = Some x -> JS.indexOf l x = Z.of_nat i.
Proof.
  revert i. induction l as [|y l IH]; intros i Hnd Hn.
  - destruct i; discriminate Hn.
  - inversion Hnd as [|? ? Hy Hnd']; subst.
    cbn [JS.indexOf]. destruct i as [|i]; cbn [nth_error] in Hn.
    + injection Hn as ->. rewrite String.eqb_refl. reflexivity.
    + destruct (String.eqb_spec y x) as [->|Hne].
      * exfalso. apply Hy. eapply nth_error_In. exact Hn.
      * rewrite (IH i Hnd' Hn).
        destruct (Z.ltb_spec (Z.of_nat i) 0); lia.
Qed.

(** The flag of a position of the list is among the flags. *)
Lemma shl_In_view_flags (i : Z) :
  0 <= i < Z.of_nat (List.length (VIEWS_values K)) ->
  In (JS.shl 1 i) (view_flags K).
Proof.
  intros Hi. unfold view_flags.
  replace i with (Z.of_nat (Z.to_nat i)) by lia.
  apply (in_map (fun j => JS.shl 1 (Z.of_nat j))).
  apply in_seq. lia.
Qed.

(** What [viewFlag] gives is the flag of a position or [View.month]. *)
Lemma viewFlag_cases (view : string) :
  In (viewFlag K view) (view_flags K) \/ viewFlag K view = View_month K.
Proof.
  unfold viewFlag.
  set (inputView := if String.eqb view "" then VIEWS_MONTH K else view).
  destruct (Z.ltb_spec (JS.indexOf (VIEWS_values K) inputView) 0).
  - right. reflexivity.
  - left. apply shl_In_view_flags. split; [assumption|].
    apply indexOf_upper.
Qed.

(** A flag that [flagView] reads is the power of two of a position of
    the list, and the name is the one at that position. *)
Lemma flagView_Some (f : View) (name : CalendarView) :
  flagView K f = Some name ->
  exists i : nat,
    f = 2 ^ Z.of_nat i
    /\ (i < List.length (VIEWS_values K))%nat
    /\ nth_error (VIEWS_values K) i = Some name.
Proof.
  unfold flagView. destruct (JS.log2_index f) as [i|] eqn:E; [|discriminate].
  intros Hn. exists i. split; [apply JSFacts.log2_index_Some; exact E|].
  split; [|exact Hn].
  apply nth_error_Some. rewrite Hn. discriminate.
Qed.

End ViewFlagsMore.

(** X3. Decoding then encoding: when [flagView] reads a flag as a name, the
    flag of that name is the flag again. The list of names has no
    duplicates and at most 31 names, and the name is not the empty
    string. *)
Theorem viewFlag_flagView_roundtrip (K : constants)
    (f : View) (name : CalendarView) :
  NoDup (VIEWS_values K) ->
  (List.length (VIEWS_values K) <= 31)%nat ->
  flagView K f = Some name ->
  name <> ""%string ->
  viewFlag K name = f.
Proof.
  intros Hnd Hlen Hf Hne.
  destruct (flagView_Some K f name Hf) as [i [-> [Hi Hn]]].
  rewrite viewFlag_recognized;
    [|eapply nth_error_In; exact Hn|exact Hne].
  rewrite (indexOf_nth_NoDup _ i name Hnd Hn).
  unfold CalendarView in *. apply JSFacts.shl_1. lia.
Qed.

Lemma viewFlag_flagView_roundtrip_witness :
  viewFlag wx_constants "month" = 2.
Proof.
  apply (viewFlag_flagView_roundtrip wx_constants 2 "month"%string).
  - simpl. repeat constructor; simpl; intuition discriminate.
  - simpl. lia.
  - reflexivity.
  - discriminate.
Defined.

(** X4. [flagView] reads exactly the flags of the positions of the list, and
    gives [undefined] for every other number; the list has at most 31
    names. *)
Theorem flagView_defined_iff_flag (K : constants) (f : View) :
  (List.length (VIEWS_values K) <= 31)%nat ->
  (exists name : CalendarView, flagView K f = Some name)
  <-> In f (view_flags K).
Proof.
  intros Hlen. split.
  - intros [name Hf].
    destruct (flagView_Some K f name Hf) as [i [-> [Hi _]]].
    unfold CalendarView in *.
    rewrite <- JSFacts.shl_1 by lia.
    apply shl_In_view_flags. unfold CalendarView. lia.
  - unfold view_flags. intros Hin. apply in_map_iff in Hin.
    destruct Hin as [i [<- Hi]]. apply in_seq in Hi.
    unfold CalendarView in *.
    rewrite JSFacts.shl_1 by lia.
    unfold flagView. rewrite JSFacts.log2_index_pow2 by lia.
    rewrite Nat2Z.id.
    destruct (nth_error (VIEWS_values K) i) as [name|] eqn:E.
    + exists name. reflexivity.
    + apply nth_error_None in E. unfold CalendarView in *. lia.
Qed.

Lemma flagView_defined_iff_flag_witness :
  (exists name : CalendarView, flagView wx_constants 8 = Some name)
  <-> In 8 (view_flags wx_constants).
Proof.
  apply (flagView_defined_iff_flag wx_constants 8). simpl. lia.
Defined.

(** X5. Whatever the string, [viewFlag] gives a view: [isView] holds of its
    result. The [View] enum holds the flags of the list, as for C9. *)
Theorem isView_viewFlag (K : constants) (view : string) :
  (forall z : Z,
     In z [View_week K; View_month K; View_schedule K]
     <-> In z (view_flags K)) ->
  isView K (JS.Num (viewFlag K view)) = true.
Proof.
  intros Henum. apply isView_enum. exists (viewFlag K view).
  split; [reflexivity|].
  destruct (viewFlag_cases K view) as [Hin | ->].
  - apply Henum. exact Hin.
  - simpl. auto.
Qed.

Lemma isView_viewFlag_witness :
  isView wx_constants (JS.Num (viewFlag wx_constants "bogus")) = true.
Proof.
  apply (isView_viewFlag wx_constants "bogus").
  intros z. vm_compute. tauto.
Defined.

(** ** More on the hide classes *)

Section LayoutMore.

Local Open Scope string_scope.

(** What occurs in a string occurs in the string with more after it. *)
Lemma occurs_append_r (t s more : string) :
  occurs t s -> occurs t (s ++ more).
Proof.
  intros [pre [post ->]]. exists pre, (post ++ more).
  rewrite !StringFacts.append_assoc. reflexivity.
Qed.

(** For an area with a literal name [hasLayoutArea] is false exactly on
    the strings in which the token of the area occurs. *)
Lemma hasLayoutArea_false_iff (cls : string) (area : LayoutArea) :
  RegExp.literal area = true ->
  hasLayoutArea cls area = Some false <-> occurs (LHCP ++ area) cls.
Proof.
  intros Hlit. unfold hasLayoutArea.
  rewrite (RegExpFacts.hide_RegExp_literal area Hlit).
  rewrite <- RegExpFacts.test_literal_spaces.
  destruct (RegExp.test _ cls); simpl; split; congruence.
Qed.

End LayoutMore.

(** X6. The classes of a layout depend on which areas the layout holds, not
    on their order or on how often one is listed. *)
Theorem layoutHideCls_same_areas (K : constants)
    (layout1 layout2 : list LayoutArea) :
  (forall a : LayoutArea, In a layout1 <-> In a layout2) ->
  layoutHideCls K (Some layout1) = layoutHideCls K (Some layout2).
Proof.
  intros Hsame. unfold layoutHideCls.
  destruct layout1 as [|x1 l1], layout2 as [|x2 l2].
  - reflexivity.
  - exfalso. apply (Hsame x2). left. reflexivity.
  - exfalso. apply (Hsame x1). left. reflexivity.
  - f_equal. f_equal. apply filter_ext. intros a. f_equal.
    apply eq_true_iff_eq. rewrite !includes_In. apply Hsame.
Qed.

Lemma layoutHideCls_same_areas_witness :
  layoutHideCls wx_constants (Some ["title"; "header"; "title"]%string)
  = layoutHideCls wx_constants (Some ["header"; "title"]%string).
Proof.
  apply (layoutHideCls_same_areas wx_constants).
  intros a. simpl. tauto.
Defined.

(** X7. [addLayoutHideCls] hides and never shows: an area that
    [hasLayoutArea] gives as hidden in a class string is still hidden in
    the string with the token of another area added. The areas have
    literal names. *)
Theorem addLayoutHideCls_keeps_hidden
    (cls : string) (area other : LayoutArea) :
  RegExp.literal area = true ->
  RegExp.literal other = true ->
  hasLayoutArea cls other = Some false ->
  exists added : string,
    addLayoutHideCls cls area = Some added
    /\ hasLayoutArea added other = Some false.
Proof.
  intros Ha Ho Hhid.
  apply (hasLayoutArea_false_iff cls other Ho) in Hhid.
  unfold addLayoutHideCls.
  rewrite (RegExpFacts.hide_RegExp_literal area Ha).
  eexists. split; [reflexivity|].
  apply (hasLayoutArea_false_iff _ other Ho).
  destruct (RegExp.test _ cls); [exact Hhid|].
  apply occurs_append_r. exact Hhid.
Qed.

Lemma addLayoutHideCls_keeps_hidden_witness :
  exists added : string,
    addLayoutHideCls "wc--hide-title"%string "today"%string = Some added
    /\ hasLayoutArea added "title"%string = Some false.
Proof.
  apply (addLayoutHideCls_keeps_hidden "wc--hide-title"
           "today"%string "title"%string); reflexivity.
Defined.

(** X8. Adding the token of an area that a layout leaves out to the classes
    of that layout gives the classes back: [layoutHideCls] has hidden the
    area already. *)
Theorem addLayoutHideCls_layoutHideCls (K : constants)
    (layout : list LayoutArea) (area : LayoutArea) :
  RegExp.literal area = true ->
  layout <> [] ->
  In area (FULL_LAYOUT K) ->
  ~ In area layout ->
  addLayoutHideCls (layoutHideCls K (Some layout)) area
  = Some (layoutHideCls K (Some layout)).
Proof.
  intros Hlit Hne Hin Hout. unfold addLayoutHideCls.
  rewrite (RegExpFacts.hide_RegExp_literal area Hlit).
  rewrite (proj2 (RegExpFacts.test_literal_spaces _ _)
             (layoutHideCls_hidden K area layout Hne Hin Hout)).
  reflexivity.
Qed.

Lemma addLayoutHideCls_layoutHideCls_witness :
  addLayoutHideCls
    (layoutHideCls wx_constants (Some ["header"; "title"]%string))
    "today"%string
  = Some (layoutHideCls wx_constants (Some ["header"; "title"]%string)).
Proof.
  apply (addLayoutHideCls_layoutHideCls wx_constants).
  - reflexivity.
  - discriminate.
  - simpl. auto 10.
  - simpl. intuition discriminate.
Defined.

(** ** More on the ticks *)

Section TicksMore.

(** One turn of the loop on a count that is not zero: a tick, then the
    loop on the count less one. *)
Lemma severalTicks_step (n : Z) :
  n <> 0 ->
  eutt eq (severalTicks n)
    (ITree.bind (ITree.trigger NextTick) (fun _ => severalTicks (n - 1))).
Proof.
  intros Hn. unfold severalTicks at 1. rewrite unfold_iter.
  destruct (Z.eqb_spec n 0) as [E|_]; [contradiction|].
  unfold nextTick. rewrite !bind_bind.
  eapply eutt_clo_bind; [reflexivity|].
  intros [] [] _.
  rewrite !bind_ret_l, tau_eutt. reflexivity.
Qed.

Lemma ticks_add (a b : nat) :
  eutt eq (ticks (a + b)) (ITree.bind (ticks a) (fun _ => ticks b)).
Proof.
  induction a as [|a IH]; cbn [ticks Nat.add].
  - rewrite bind_ret_l. reflexivity.
  - rewrite bind_bind.
    eapply eutt_clo_bind; [reflexivity|].
    intros [] [] _. exact IH.
Qed.

End TicksMore.

(** X10. Waiting for [a] ticks and then for [b] ticks is waiting for [a + b]
    ticks, for counts that are not negative. *)
Theorem severalTicks_add (a b : Z) :
  0 <= a ->
  0 <= b ->
  eutt eq (ITree.bind (severalTicks a) (fun _ => severalTicks b))
    (severalTicks (a + b)).
Proof.
  intros Ha Hb.
  replace a with (Z.of_nat (Z.to_nat a)) by lia.
  replace b with (Z.of_nat (Z.to_nat b)) by lia.
  generalize (Z.to_nat a) (Z.to_nat b). intros x y.
  rewrite <- Nat2Z.inj_add.
  rewrite (severalTicks_ticks (x + y)), ticks_add.
  eapply eutt_clo_bind; [apply severalTicks_ticks|].
  intros [] [] _. apply severalTicks_ticks.
Qed.

Lemma severalTicks_add_witness :
  eutt eq (ITree.bind (severalTicks 1) (fun _ => severalTicks 2))
    (severalTicks (1 + 2)).
Proof.
  apply (severalTicks_add 1 2); lia.
Defined.

(** X11. On a negative count the loop does not end: after any number of ticks
    it is the loop again, on a count that is still negative, and so asks
    for one more tick. *)
Theorem severalTicks_negative_goes_on (n : Z) (m : nat) :
  n < 0 ->
  n - Z.of_nat m < 0
  /\ eutt eq (severalTicks n)
       (ITree.bind (ticks m)
          (fun _ => ITree.bind (ITree.trigger NextTick)
                      (fun _ => severalTicks (n - Z.of_nat m - 1)))).
Proof.
  intros Hn. split; [lia|].
  revert n Hn. induction m as [|m IH]; intros n Hn; cbn [ticks].
  - rewrite bind_ret_l. replace (n - Z.of_nat 0) with n by lia.
    apply severalTicks_step. lia.
  - rewrite severalTicks_step by lia. rewrite bind_bind.
    eapply eutt_clo_bind; [reflexivity|].
    intros [] [] _.
    replace (n - Z.of_nat (S m) - 1) with (n - 1 - Z.of_nat m - 1) by lia.
    apply IH. lia.
Qed.

Lemma severalTicks_negative_goes_on_witness :
  -1 - Z.of_nat 3 < 0
  /\ eutt eq (severalTicks (-1))
       (ITree.bind (ticks 3)
          (fun _ => ITree.bind (ITree.trigger NextTick)
                      (fun _ => severalTicks (-1 - Z.of_nat 3 - 1)))).
Proof.
  apply (severalTicks_negative_goes_on (-1) 3). lia.
Defined.

(** ** Trimming, splitting and joining *)

Module JSStringFacts.

Import JSString.
Local Open Scope string_scope.

Lemma trimStart_head (s : string) :
  match trimStart s with
  | String c _ => is_whitespace c = false
  | EmptyString => True
  end.
Proof.
  induction s as [|c s IH]; cbn [trimStart]; [exact I|].
  destruct (is_whitespace c) eqn:E; [exact IH|exact E].
Qed.

Lemma trimStart_fixed (t : string) :
  match t with
  | String c _ => is_whitespace c = false
  | EmptyString => True
  end ->
  trimStart t = t.
Proof.
  destruct t as [|c t]; intros H; cbn [trimStart]; [reflexivity|].
  rewrite H. reflexivity.
Qed.

Lemma trimEnd_head (t : string) :
  match t with
  | String c _ => is_whitespace c = false
  | EmptyString => True
  end ->
  match trimEnd t with
  | String c _ => is_whitespace c = false
  | EmptyString => True
  end.
Proof.
  destruct t as [|c t]; intros H; cbn [trimEnd]; [exact I|].
  destruct (trimEnd t); [rewrite H|]; exact H.
Qed.

Lemma trimEnd_idempotent (t : string) : trimEnd (trimEnd t) = trimEnd t.
Proof.
  induction t as [|c t IH]; [reflexivity|].
  cbn [trimEnd]. destruct (trimEnd t) as [|d r] eqn:E.
  - destruct (is_whitespace c) eqn:Hc; [reflexivity|].
    cbn [trimEnd]. rewrite Hc. reflexivity.
  - cbn [trimEnd]. cbn [trimEnd] in IH. rewrite IH. reflexivity.
Qed.

(** Trimming what is trimmed changes nothing. *)
Lemma trim_idempotent (s : string) : trim (trim s) = trim s.
Proof.
  unfold trim.
  rewrite (trimStart_fixed (trimEnd (trimStart s))).
  - apply trimEnd_idempotent.
  - apply trimEnd_head, trimStart_head.
Qed.

Lemma chars_append (a b : string) :
  list_ascii_of_string (a ++ b)
  = (list_ascii_of_string a ++ list_ascii_of_string b)%list.
Proof.
  induction a as [|c a IH]; simpl; [|rewrite IH]; reflexivity.
Qed.

Lemma trimStart_chars (x : ascii) (s : string) :
  In x (list_ascii_of_string (trimStart s)) ->
  In x (list_ascii_of_string s).
Proof.
  induction s as [|c s IH]; cbn [trimStart]; [auto|].
  destruct (is_whitespace c); [|auto].
  intros H. right. apply IH. exact H.
Qed.

Lemma trimEnd_chars (x : ascii) (s : string) :
  In x (list_ascii_of_string (trimEnd s)) ->
  In x (list_ascii_of_string s).
Proof.
  induction s as [|c s IH]; cbn [trimEnd]; [auto|].
  destruct (trimEnd s) as [|d r].
  - destruct (is_whitespace c); simpl; tauto.
  - simpl. simpl in IH. tauto.
Qed.

(** A character of the trimmed string is a character of the string. *)
Lemma trim_chars (x : ascii) (s : string) :
  In x (list_ascii_of_string (trim s)) -> In x (list_ascii_of_string s).
Proof.
  intros H. apply trimStart_chars, trimEnd_chars. exact H.
Qed.

Lemma prefix_single (c d : ascii) (s : string) :
  String.prefix (String c "") (String d s) = Ascii.eqb c d.
Proof.
  cbn [String.prefix].
  destruct (ascii_dec c d) as [->|Hne].
  - rewrite Ascii.eqb_refl. destruct s; reflexivity.
  - symmetry. apply Ascii.eqb_neq. exact Hne.
Qed.

(** With a separator of one character, a piece without it is read
    through. *)
Lemma split_from_piece (c : ascii) (p rest piece : string) :
  ~ In c (list_ascii_of_string p) ->
  split_from (String c "") (p ++ rest) 0 piece
  = split_from (String c "") rest 0 (piece ++ p).
Proof.
  revert piece. induction p as [|d p IH]; intros piece Hp.
  - rewrite StringFacts.append_nil_r. reflexivity.
  - change (String d p ++ rest) with (String d (p ++ rest)).
    cbn [split_from]. rewrite prefix_single.
    destruct (Ascii.eqb_spec c d) as [->|Hne].
    + exfalso. apply Hp. left. reflexivity.
    + rewrite IH by (intros H; apply Hp; right; exact H).
      rewrite StringFacts.append_assoc. reflexivity.
Qed.

Lemma split_from_separator (c : ascii) (rest piece : string) :
  split_from (String c "") (String c rest) 0 piece
  = piece :: split_from (String c "") rest 0 "".
Proof.
  cbn [split_from]. rewrite prefix_single, Ascii.eqb_refl. reflexivity.
Qed.

(** The pieces that a separator of one character cuts do not hold it. *)
Lemma split_from_pieces (c : ascii) (s piece : string) :
  ~ In c (list_ascii_of_string piece) ->
  Forall (fun p => ~ In c (list_ascii_of_string p))
    (split_from (String c "") s 0 piece).
Proof.
  revert piece. induction s as [|d s IH]; intros piece Hp.
  - repeat constructor. exact Hp.
  - cbn [split_from]. rewrite prefix_single.
    destruct (Ascii.eqb_spec c d) as [->|Hne].
    + constructor; [exact Hp|]. apply IH. simpl. tauto.
    + apply IH. rewrite chars_append. intros H.
      apply in_app_or in H. simpl in H.
      destruct H as [H|[H|[]]]; [tauto|congruence].
Qed.

Lemma split_from_not_nil (sep s : string) (skip : nat) (piece : string) :
  split_from sep s skip piece <> [].
Proof.
  revert skip piece. induction s as [|d s IH]; intros skip piece;
    cbn [split_from]; [discriminate|].
  destruct skip; [|apply IH].
  destruct (String.prefix sep (String d s)); [discriminate|apply IH].
Qed.

(** Joining pieces that do not hold the separator and cutting again gives
    the pieces back. *)
Lemma split_join (c : ascii) (l : list string) :
  l <> [] ->
  Forall (fun p => ~ In c (list_ascii_of_string p)) l ->
  split (JS.join l (String c "")) (String c "") = l.
Proof.
  unfold split, JS.join.
  induction l as [|x l IH]; intros Hne Hall; [contradiction|].
  inversion Hall as [|? ? Hx Hl]; subst.
  destruct l as [|y l].
  - cbn [String.concat].
    rewrite <- (StringFacts.append_nil_r x) at 1.
    rewrite split_from_piece by exact Hx. reflexivity.
  - cbn [String.concat]. cbn [String.concat] in IH.
    rewrite split_from_piece by exact Hx.
    change (String c "" ++ ?r) with (String c r).
    rewrite split_from_separator. simpl (EmptyString ++ x).
    f_equal. apply IH; [discriminate|exact Hl].
Qed.

Lemma concat_app (sep : string) (l1 l2 : list string) :
  l1 <> [] ->
  l2 <> [] ->
  String.concat sep (l1 ++ l2)
  = String.concat sep l1 ++ sep ++ String.concat sep l2.
Proof.
  intros H1 H2. induction l1 as [|x l1 IH]; [contradiction|].
  destruct l1 as [|y l1].
  - destruct l2 as [|z l2]; [contradiction|]. reflexivity.
  - change (String.concat sep ((x :: y :: l1) ++ l2))
      with (x ++ sep ++ String.concat sep ((y :: l1) ++ l2)).
    rewrite IH by discriminate.
    change (String.concat sep (x :: y :: l1))
      with (x ++ sep ++ String.concat sep (y :: l1)).
    rewrite !StringFacts.append_assoc. reflexivity.
Qed.

Lemma concat_empty_app (l1 l2 : list string) :
  String.concat "" (l1 ++ l2) = String.concat "" l1 ++ String.concat "" l2.
Proof.
  induction l1 as [|x l1 IH].
  - reflexivity.
  - destruct l1 as [|y l1].
    + destruct l2 as [|z l2]; simpl.
      * rewrite StringFacts.append_nil_r. reflexivity.
      * reflexivity.
    + change (String.concat "" ((x :: y :: l1) ++ l2))
        with (x ++ "" ++ String.concat "" ((y :: l1) ++ l2)).
      rewrite IH.
      change (String.concat "" (x :: y :: l1))
        with (x ++ "" ++ String.concat "" (y :: l1)).
      simpl. rewrite !StringFacts.append_assoc. reflexivity.
Qed.

End JSStringFacts.

(** ** [mergeStr] *)

Section MergeStr.

Local Open Scope string_scope.

(** The trimmed pieces of the strings of a list. *)
Let pieces (strs : list string) (sep : string) : list string :=
  flat_map (fun s => List.map JSString.trim (JSString.split s sep)) strs.

Lemma mergeStr_pieces (strs : list string) (sep : string) :
  mergeStr strs (Some sep) = JS.join (pieces strs sep) sep.
Proof. reflexivity. Qed.

Lemma pieces_trimmed (strs : list string) (sep : string) :
  Forall (fun p => JSString.trim p = p) (pieces strs sep).
Proof.
  apply Forall_forall. intros p Hp. apply in_flat_map in Hp.
  destruct Hp as [s [_ Hp]]. apply in_map_iff in Hp.
  destruct Hp as [q [<- _]]. apply JSStringFacts.trim_idempotent.
Qed.

Lemma pieces_without_separator (strs : list string) (c : ascii) :
  Forall (fun p => ~ In c (list_ascii_of_string p))
    (pieces strs (String c "")).
Proof.
  apply Forall_forall. intros p Hp. apply in_flat_map in Hp.
  destruct Hp as [s [_ Hp]]. apply in_map_iff in Hp.
  destruct Hp as [q [<- Hq]]. intros Hc.
  apply JSStringFacts.trim_chars in Hc.
  pose proof (JSStringFacts.split_from_pieces c s "" (fun H => H)) as Hall.
  rewrite Forall_forall in Hall. exact (Hall q Hq Hc).
Qed.

Lemma pieces_not_nil (strs : list string) (d : ascii) (sep : string) :
  strs <> [] -> pieces strs (String d sep) <> [].
Proof.
  destruct strs as [|s strs]; intros Hne; [contradiction|].
  unfold pieces. cbn [flat_map]. intros H.
  apply app_eq_nil in H. destruct H as [H _].
  apply map_eq_nil in H.
  exact (JSStringFacts.split_from_not_nil _ _ _ _ H).
Qed.

Lemma map_fixed (f : string -> string) (l : list string) :
  Forall (fun p => f p = p) l -> List.map f l = l.
Proof.
  induction 1 as [|x l Hx _ IH]; [reflexivity|].
  cbn [List.map]. rewrite Hx, IH. reflexivity.
Qed.

(** Cutting the joined pieces at a separator of one character gives the
    pieces back. *)
Lemma split_mergeStr (strs : list string) (c : ascii) :
  strs <> [] ->
  JSString.split (mergeStr strs (Some (String c ""))) (String c "")
  = pieces strs (String c "").
Proof.
  intros Hne. rewrite mergeStr_pieces. apply JSStringFacts.split_join.
  - apply pieces_not_nil. exact Hne.
  - apply pieces_without_separator.
Qed.

End MergeStr.

(** X12. Cutting the merged string at the separator gives the trimmed pieces
    of the strings, in order, and each of them is trimmed; the separator
    is one character and there is a string to merge. *)
Theorem mergeStr_split (strs : list string) (c : ascii) :
  strs <> [] ->
  JSString.split (mergeStr strs (Some (String c ""))) (String c "")
  = flat_map
      (fun s => List.map JSString.trim (JSString.split s (String c "")))
      strs
  /\ Forall (fun p => JSString.trim p = p)
       (JSString.split (mergeStr strs (Some (String c ""))) (String c "")).
Proof.
  intros Hne.
  assert (E : JSString.split (mergeStr strs (Some (String c "")))
                (String c "")
              = flat_map
                  (fun s => List.map JSString.trim
                              (JSString.split s (String c ""))) strs).
  { apply split_mergeStr. exact Hne. }
  split; [exact E|]. rewrite E. apply pieces_trimmed.
Qed.

Lemma mergeStr_split_witness :
  JSString.split (mergeStr [" a , b"; "c "]%string (Some ","%string))
    ","%string
  = ["a"; "b"; "c"]%string.
Proof.
  apply (mergeStr_split [" a , b"; "c "]%string ","%char). discriminate.
Defined.

(** X13. Merging the merged string again changes nothing, for a separator of
    one character and for the default separator. *)
Theorem mergeStr_idempotent (strs : list string) :
  (forall c : ascii,
     mergeStr [mergeStr strs (Some (String c ""))] (Some (String c ""))
     = mergeStr strs (Some (String c "")))
  /\ mergeStr [mergeStr strs None] None = mergeStr strs None.
Proof.
  assert (H : forall c : ascii,
             mergeStr [mergeStr strs (Some (String c ""))]
               (Some (String c ""))
             = mergeStr strs (Some (String c ""))).
  { intros c. destruct strs as [|s strs]; [reflexivity|].
    rewrite (mergeStr_pieces [_]). cbn [flat_map].
    rewrite app_nil_r, split_mergeStr by discriminate.
    rewrite (map_fixed _ _ (pieces_trimmed _ _)). reflexivity. }
  split; [exact H|]. exact (H ","%char).
Qed.

(** X14. Merging two lists of strings, neither of them empty, is merging each
    and putting the separator between the two. *)
Theorem mergeStr_app (xs ys : list string) (sep : string) :
  xs <> [] ->
  ys <> [] ->
  mergeStr (xs ++ ys) (Some sep)
  = (mergeStr xs (Some sep) ++ sep ++ mergeStr ys (Some sep))%string.
Proof.
  intros Hx Hy. rewrite !mergeStr_pieces. unfold JS.join.
  rewrite flat_map_app.
  destruct sep as [|d sep].
  - apply JSStringFacts.concat_empty_app.
  - apply JSStringFacts.concat_app; apply pieces_not_nil; assumption.
Qed.

Lemma mergeStr_app_witness :
  mergeStr (["a , b"%string] ++ ["c"%string])%list (Some ","%string)
  = (mergeStr ["a , b"]%string (Some ","%string) ++ ","
     ++ mergeStr ["c"]%string (Some ","%string))%string.
Proof.
  apply (mergeStr_app ["a , b"]%string ["c"]%string); discriminate.
Defined.

(** With a separator of two characters the second merge may change the
    string: the pieces are cut at other places and trimmed again. *)
Example mergeStr_twice_long_separator :
  mergeStr ["a"; "b a"; "x"]%string (Some "aa"%string) = "aaab aaax"%string
  /\ mergeStr ["aaab aaax"]%string (Some "aa"%string) = "aaabaaax"%string.
Proof. split; reflexivity. Qed.

(** ** [initWeeks] *)

Section InitWeeks.

Lemma get_seq (w : string) :
  List.map (fun i => String.get i w) (seq 0 (String.length w))
  = List.map Some (list_ascii_of_string w).
Proof.
  induction w as [|c w IH]; [reflexivity|].
  cbn [String.length seq List.map list_ascii_of_string String.get].
  f_equal. rewrite <- seq_shift, map_map. exact IH.
Qed.

(** The digits of a number tell the number. *)
Lemma of_nat_injective (a b : nat) :
  JSString.of_nat a = JSString.of_nat b -> a = b.
Proof.
  unfold JSString.of_nat. intros H.
  apply (f_equal NilEmpty.uint_of_string) in H.
  rewrite !NilEmpty.usu in H. injection H as H.
  apply (f_equal Nat.of_uint) in H.
  rewrite !DecimalNat.Unsigned.of_to in H. exact H.
Qed.

Lemma NoDup_map_injective (f : nat -> string) (l : list nat) :
  (forall a b : nat, f a = f b -> a = b) ->
  NoDup l -> NoDup (List.map f l).
Proof.
  intros Hinj. induction 1 as [|x l Hx _ IH]; cbn [List.map];
    constructor; [|exact IH].
  intros Hin. apply in_map_iff in Hin. destruct Hin as [y [E Hy]].
  apply Hinj in E. subst y. contradiction.
Qed.

End InitWeeks.

(** X15. [initWeeks] gives one entry for each character of the string of
    weekdays, the default string when none is given, and the labels are
    the characters of the string, in order; no label is [undefined]. *)
Theorem initWeeks_labels (WEEKS : string) (weeks : option string) :
  let w := match weeks with Some w => w | None => WEEKS end in
  List.length (initWeeks WEEKS weeks) = String.length w
  /\ List.map label (initWeeks WEEKS weeks)
     = List.map (fun c => Some (String c EmptyString))
         (list_ascii_of_string w).
Proof.
  intros w. unfold initWeeks. fold w. split.
  - rewrite length_map, length_seq. reflexivity.
  - rewrite map_map. cbn [label].
    rewrite <- (map_map (fun i => String.get i w)
                  (option_map (fun c => String c EmptyString))).
    rewrite get_seq, map_map. reflexivity.
Qed.

(** X16. The keys of the entries of [initWeeks] are all different. *)
Theorem initWeeks_keys_distinct (WEEKS : string) (weeks : option string) :
  NoDup (List.map key (initWeeks WEEKS weeks)).
Proof.
  unfold initWeeks. rewrite map_map. cbn [key].
  apply NoDup_map_injective; [|apply seq_NoDup].
  intros a b H. injection H as H. apply of_nat_injective. exact H.
Qed.

(** ** The adapters of the animated styles and of the viewport *)

Section AdaptersFacts.

Import Promise.

Variables A B E : Type.

(** A promise that only [resolve] is called on is pending until the first
    call and holds the value of the first call from then on. *)
Lemma resolve_first (g : B -> A) (calls : list B) :
  fold_left (fun (p : promise A E) x => resolve (g x) p) calls Pending
  = match calls with
    | [] => Pending
    | x :: _ => Fulfilled (g x)
    end.
Proof.
  destruct calls as [|x calls]; [reflexivity|].
  cbn [fold_left resolve].
  induction calls as [|y calls IH]; [reflexivity|exact IH].
Qed.

End AdaptersFacts.

(** X17. The promises of [applyAnimated], [clearAnimated] and [viewportOffset]
    are never rejected: each is pending while the host has not called the
    callback, and from the first call on it is resolved with the result of
    that call, the style id for [applyAnimated]; later calls change
    nothing. *)
Theorem adapters_resolve_with_first_call
    (AnimatedUpdater AnimatedUserConfig ScrollOffset E : Type)
    (instance : string -> AnimatedUpdater -> option AnimatedUserConfig ->
                list AnimatedResult)
    (clearing : string -> list Z -> list unit)
    (component : list ScrollOffset)
    (selector : string) (updater : AnimatedUpdater)
    (options : option AnimatedUserConfig) (ids : list Z) :
  applyAnimated AnimatedUpdater AnimatedUserConfig E
    instance selector updater options
  = match instance selector updater options with
    | [] => Promise.Pending
    | result :: _ => Promise.Fulfilled (styleId result)
    end
  /\ clearAnimated E clearing selector ids
     = match clearing selector ids with
       | [] => Promise.Pending
       | _ :: _ => Promise.Fulfilled tt
       end
  /\ viewportOffset ScrollOffset E component
     = match component with
       | [] => Promise.Pending
       | offset :: _ => Promise.Fulfilled offset
       end.
Proof.
  split; [|split].
  - apply (resolve_first Z AnimatedResult E styleId).
  - unfold clearAnimated.
    rewrite (resolve_first unit unit E (fun _ => tt)).
    destruct (clearing selector ids); reflexivity.
  - apply (resolve_first ScrollOffset ScrollOffset E (fun x => x)).
Qed.

(** ** The classes of a layout, read back *)

Section LayoutReadBack.

Local Open Scope string_scope.

(** A string without the character [c] that starts a string with a [c]
    in it ends before that [c]. *)
Lemma starts_before_char (t post a b : string) (c : ascii) :
  t ++ post = a ++ String c b ->
  ~ In c (list_ascii_of_string t) ->
  exists r : string, a = t ++ r.
Proof.
  revert a. induction t as [|d t IH]; intros a E Hc.
  - exists a. reflexivity.
  - destruct a as [|e a]; simpl in E; injection E as -> E.
    + exfalso. apply Hc. left. reflexivity.
    + destruct (IH a E) as [r ->].
      * intros H. apply Hc. right. exact H.
      * exists r. reflexivity.
Qed.

(** A string without the character [c] that occurs in two strings joined
    by a [c] occurs in one of the two. *)
Lemma occurs_app_char (t a b : string) (c : ascii) :
  ~ In c (list_ascii_of_string t) ->
  occurs t (a ++ String c b) ->
  occurs t a \/ occurs t b.
Proof.
  intros Hc [pre [post E]]. revert pre E.
  induction a as [|d a IH]; intros pre E.
  - destruct pre as [|e pre]; simpl in E.
    + destruct t as [|x t]; simpl in E.
      * left. exists "", "". reflexivity.
      * injection E as <- _. exfalso. apply Hc. left. reflexivity.
    + injection E as _ ->. right. exists pre, post. reflexivity.
  - destruct pre as [|e pre].
    + left. simpl in E.
      destruct (starts_before_char t post (String d a) b c (eq_sym E) Hc)
        as [r ->].
      exists "", r. reflexivity.
    + simpl in E. injection E as _ E.
      destruct (IH pre E) as [H|H].
      * left. apply StringFacts.occurs_cons. exact H.
      * right. exact H.
Qed.

(** A token without a blank that occurs in the classes joined by blanks
    occurs in one of the classes. *)
Lemma occurs_concat_inv (t : string) (l : list string) :
  t <> "" ->
  ~ In " "%char (list_ascii_of_string t) ->
  occurs t (String.concat " " l) ->
  exists x : string, In x l /\ occurs t x.
Proof.
  intros Hne Hb. induction l as [|x l IH]; intros Hocc.
  - destruct Hocc as [pre [post E]]. simpl in E.
    destruct pre; [|discriminate]. destruct t; [contradiction|discriminate].
  - destruct l as [|y l].
    + exists x. split; [left; reflexivity|exact Hocc].
    + cbn [String.concat] in Hocc.
      change (" " ++ ?r) with (String " "%char r) in Hocc.
      apply occurs_app_char in Hocc; [|exact Hb].
      destruct Hocc as [H|H].
      * exists x. split; [left; reflexivity|exact H].
      * destruct (IH H) as [z [Hz Hoz]].
        exists z. split; [right; exact Hz|exact Hoz].
Qed.

End LayoutReadBack.

(** X9. Reading a layout back from its classes: for a layout that is not
    empty and an area of the full list, [hasLayoutArea] on the classes
    that [layoutHideCls] gives says whether the layout holds the area.
    The name of the area is literal and has no blank, and the token of no
    other area of the full list hides the area by itself. *)
Theorem hasLayoutArea_layoutHideCls (K : constants)
    (layout : list LayoutArea) (area : LayoutArea) :
  layout <> [] ->
  In area (FULL_LAYOUT K) ->
  RegExp.literal area = true ->
  ~ In " "%char (list_ascii_of_string area) ->
  (forall other : LayoutArea,
     In other (FULL_LAYOUT K) ->
     other <> area ->
     hasLayoutArea (LHCP ++ other)%string area = Some true) ->
  hasLayoutArea (layoutHideCls K (Some layout)) area
  = Some (JS.includes layout area).
Proof.
  intros Hne Hin Hlit Hblank Hothers.
  destruct (JS.includes layout area) eqn:Hinc.
  - apply includes_In in Hinc.
    destruct (hasLayoutArea (layoutHideCls K (Some layout)) area)
      as [[|]|] eqn:Hhas.
    + reflexivity.
    + exfalso.
      apply (hasLayoutArea_false_iff _ area Hlit) in Hhas.
      unfold layoutHideCls in Hhas.
      destruct layout as [|x l]; [contradiction|].
      apply occurs_concat_inv in Hhas.
      * destruct Hhas as [tok [Htok Hocc]].
        apply in_map_iff in Htok. destruct Htok as [other [<- Hother]].
        apply filter_In in Hother. destruct Hother as [Hfull Hout].
        assert (Hdiff : other <> area).
        { intros ->. apply negb_true_iff in Hout.
          apply (proj2 (includes_In _ _)) in Hinc. congruence. }
        pose proof (Hothers other Hfull Hdiff) as Hvis.
        apply (hasLayoutArea_false_iff _ area Hlit) in Hocc.
        congruence.
      * discriminate.
      * simpl. intros [H|[H|[H|[H|[H|[H|[H|[H|[H|H]]]]]]]]];
          try discriminate H. exact (Hblank H).
    + unfold hasLayoutArea in Hhas.
      rewrite (RegExpFacts.hide_RegExp_literal area Hlit) in Hhas.
      discriminate Hhas.
  - apply (hasLayoutArea_false_iff _ area Hlit).
    apply layoutHideCls_hidden; [exact Hne|exact Hin|].
    intros H. apply includes_In in H. congruence.
Qed.

Lemma hasLayoutArea_layoutHideCls_witness :
  hasLayoutArea
    (layoutHideCls wx_constants (Some ["header"; "today"]%string))
    "today"%string
  = Some true.
Proof.
  apply (hasLayoutArea_layoutHideCls wx_constants
           ["header"; "today"]%string "today"%string).
  - discriminate.
  - simpl. auto 10.
  - reflexivity.
  - simpl. intuition discriminate.
  - simpl. intros other Hin Hne.
    destruct Hin as [<-|[<-|[<-|[<-|[<-|[<-|[]]]]]]];
      try reflexivity; contradiction.
Defined.
